(** * khronos: a routed priority queue behind a RESP front end

    A shallow embedding of the Go package [khronos] (queue.go, the RESP
    codec, commands.go, server.go) and the properties its design document
    states about it.

    Conventions.
    - A Go [string] or [[]byte] is a [string]: a sequence of 8-bit
      characters.
    - A Go [int64] is a [Z]; the code never does arithmetic on priorities,
      it only compares them, so no wrap-around is involved.
    - Positions in a slice are [nat].  The only place where Go computes a
      negative position is [(j - 1) / 2] at [j = 0] in [heap.up]; Go's
      division truncates toward zero and gives [0], which is also what
      the truncated subtraction of [nat] gives.
    - A run-time panic (index out of range, [make] with a negative length)
      is a result of its own: [None] in the queue part, [Panic] in the
      codec part. *)

From Stdlib Require Import ZArith Lia String Ascii.
From stdpp Require Import base option list gmap strings pretty.

Local Open Scope string_scope.
Local Open Scope list_scope.
Local Open Scope nat_scope.

(** ** queue.go: Item and PriorityQueue *)

(** [type Item struct { value string; priority int64; index int }]. *)
Record Item := mkItem { value : string; priority : Z; index : Z }.

(** The part of an item that the heap never writes.  [index] is
    bookkeeping, written by [Swap], [Push] and [Pop] and read by nobody. *)
Definition payload (x : Item) : string * Z := (value x, priority x).

(** [pq[i].index = k], on an item held by value.  [PushCommand.Execute]
    allocates a fresh [Item] for every push, so no two slots share an
    item. *)
Definition set_index (x : Item) (k : Z) : Item :=
  {| value := value x; priority := priority x; index := k |}.

(** [type PriorityQueue []*Item] *)
Abbreviation PriorityQueue := (list Item).

Definition Len (pq : PriorityQueue) : nat := length pq.

(** [pq[i].priority > pq[j].priority]; an index out of range panics. *)
Definition Less (pq : PriorityQueue) (i j : nat) : option bool :=
  a ← pq !! i; b ← pq !! j; Some (Z.gtb (priority a) (priority b)).

(** [pq[i], pq[j] = pq[j], pq[i]; pq[i].index = i; pq[j].index = j] *)
Definition Swap (pq : PriorityQueue) (i j : nat) : option PriorityQueue :=
  a ← pq !! i; b ← pq !! j;
  Some (<[j := set_index a (Z.of_nat j)]> (<[i := set_index b (Z.of_nat i)]> pq)).

(** [Push]: the item's [index] is set to the old length and the item is
    appended. *)
Definition Push (pq : PriorityQueue) (x : Item) : PriorityQueue :=
  pq ++ [set_index x (Z.of_nat (length pq))].

(** [Pop]: [item := old[n-1]; item.index = -1], the slice is cut to
    [old[0 : n-1]] and the item returned. *)
Definition Pop (pq : PriorityQueue) : option (Item * PriorityQueue) :=
  match length pq with
  | O => None
  | S m => item ← pq !! m; Some (set_index item (-1)%Z, take m pq)
  end.

(** ** container/heap, as this package drives it

    [heap.up], [heap.down], [heap.Init], [heap.Push] and [heap.Pop] of
    the Go standard library, over the five methods above.  The loops
    carry fuel; [None] is a panic or exhausted fuel, and the theorems
    below show that neither happens. *)
Module heap.

Fixpoint up (fuel : nat) (h : PriorityQueue) (j : nat) : option PriorityQueue :=
  match fuel with
  | O => None
  | S fuel' =>
      let i := (j - 1) / 2 in (* parent *)
      if bool_decide (i = j) then Some h
      else
        lt ← Less h j i;
        if negb lt then Some h
        else h' ← Swap h i j; up fuel' h' i
  end.

(** The boolean that Go's [down] returns (did the element move) is used
    by [heap.Fix] and [heap.Remove] only, which this package never
    calls. *)
Fixpoint down (fuel : nat) (h : PriorityQueue) (i n : nat) : option PriorityQueue :=
  match fuel with
  | O => None
  | S fuel' =>
      let j1 := 2 * i + 1 in
      if bool_decide (n ≤ j1) then Some h
      else
        j ← (if bool_decide (j1 + 1 < n)
             then lt ← Less h (j1 + 1) j1; Some (if lt : bool then j1 + 1 else j1)
             else Some j1);
        lt ← Less h j i;
        if negb lt then Some h
        else h' ← Swap h i j; down fuel' h' j n
  end.

(** [for i := n/2 - 1; i >= 0; i-- { down(h, i, n) }], counted by the
    number of positions still to visit. *)
Fixpoint Init_loop (todo : nat) (h : PriorityQueue) (n : nat) : option PriorityQueue :=
  match todo with
  | O => Some h
  | S i => h' ← down (S n) h i n; Init_loop i h' n
  end.

Definition Init (h : PriorityQueue) : option PriorityQueue :=
  let n := Len h in Init_loop (n / 2) h n.

(** [h.Push(x); up(h, h.Len()-1)] *)
Definition Push (h : PriorityQueue) (x : Item) : option PriorityQueue :=
  let h1 := Push h x in up (S (Len h1)) h1 (Len h1 - 1).

(** [n := h.Len() - 1; h.Swap(0, n); down(h, 0, n); return h.Pop()] *)
Definition Pop (h : PriorityQueue) : option (Item * PriorityQueue) :=
  let n := Len h - 1 in
  h1 ← Swap h 0 n;
  h2 ← down (S n) h1 0 n;
  Pop h2.

End heap.

(** ** queue.go: PriorityQueueWithRouting *)

(** The mutex a [sync.Cond] was built on: [&pq.queueLock], or the
    [&sync.Mutex{}] that [Dequeue] allocates for a route (at most one per
    route, since a route's condition variable is created once and never
    replaced). *)
Inductive lockid := queueLock | condMutex (route : string).

#[global] Instance lockid_eq_dec : EqDecision lockid.
Proof. solve_decision. Defined.

(** [sync.Cond], by its field [L]. *)
Record Cond := mkCond { L : lockid }.

Record PriorityQueueWithRouting := mkPQ {
  queueMap : gmap string PriorityQueue;
  notEmpty : gmap string Cond
}.

Definition NewPriorityQueueWithRouting : PriorityQueueWithRouting :=
  {| queueMap := ∅; notEmpty := ∅ |}.

(** The body of [Enqueue], run with [queueLock] held.  [cond.Broadcast()]
    changes no field of the queue; whom it wakes is the business of the
    scheduler model further down. *)
Definition Enqueue (pq : PriorityQueueWithRouting) (route : string) (item : Item)
  : option PriorityQueueWithRouting :=
  queue ← match queueMap pq !! route with
          | Some queue => Some queue
          | None => heap.Init []
          end;
  queue' ← heap.Push queue item;
  Some {| queueMap := <[route := queue']> (queueMap pq);
          notEmpty := match notEmpty pq !! route with
                      | Some _ => notEmpty pq
                      | None => <[route := mkCond queueLock]> (notEmpty pq)
                      end |}.

(** One pass through the loop of [Dequeue], run with [queueLock] held:
    either the item is popped and returned, or the caller goes on to
    wait on the route's condition variable, creating it on a mutex of
    its own if the route has none. *)
Inductive attempt :=
| Popped (item : Item) (pq : PriorityQueueWithRouting)
| MustWait (pq : PriorityQueueWithRouting).

Definition Dequeue_wait (pq : PriorityQueueWithRouting) (route : string)
  : PriorityQueueWithRouting :=
  {| queueMap := queueMap pq;
     notEmpty := match notEmpty pq !! route with
                 | Some _ => notEmpty pq
                 | None => <[route := mkCond (condMutex route)]> (notEmpty pq)
                 end |}.

Definition Dequeue_pass (pq : PriorityQueueWithRouting) (route : string)
  : option attempt :=
  match queueMap pq !! route with
  | Some queue =>
      if bool_decide (0 < Len queue) then
        '(item, queue') ← heap.Pop queue;
        Some (Popped item {| queueMap := <[route := queue']> (queueMap pq);
                             notEmpty := notEmpty pq |})
      else Some (MustWait (Dequeue_wait pq route))
  | None => Some (MustWait (Dequeue_wait pq route))
  end.

(** A call of [Dequeue] in a serialized run: it returns when its first
    pass pops; otherwise it waits for a signal that, with no other caller
    running, never comes. *)
Definition Dequeue (pq : PriorityQueueWithRouting) (route : string)
  : option (Item * PriorityQueueWithRouting) :=
  match Dequeue_pass pq route with
  | Some (Popped item pq') => Some (item, pq')
  | _ => None
  end.

(** [Length] returns a Go [int]. *)
Definition Length (pq : PriorityQueueWithRouting) (route : string) : Z :=
  match queueMap pq !! route with
  | None => 0%Z
  | Some queue => Z.of_nat (Len queue)
  end.

(** * The RESP codec *)

(** ** Errors *)

(** [strconv.ErrSyntax] and [strconv.ErrRange]. *)
Inductive numerr := ErrSyntax | ErrRange.

(** The error values that travel through the package: its own
    ([ErrInvalidSyntax], [ErrQuit], the two structs of error.go) and
    those of the libraries it calls ([io.EOF], [io.ErrUnexpectedEOF],
    [*strconv.NumError]). *)
Inductive error :=
| ErrInvalidSyntax
| ErrQuit
| EOF
| ErrUnexpectedEOF
| NumError (Func Num : string) (Err : numerr)
| wrongNumberOfArgsError (command : string)
| wrongCommandError (command : string) (args : list string).

(** What a call comes back with: a value, an error, or a run-time
    panic, which nothing in the package recovers from. *)
Inductive result (A : Type) : Type :=
| Ok (a : A)
| Err (e : error)
| Panic.
Arguments Ok {A} a.
Arguments Err {A} e.
Arguments Panic {A}.

(** ** Bytes *)

Definition CR : ascii := "013"%char.
Definition LF : ascii := "010"%char.
Definition CRLF : string := String CR (String LF EmptyString).

Fixpoint stake (n : nat) (s : string) : string :=
  match n, s with
  | S n', String c s' => String c (stake n' s')
  | _, _ => EmptyString
  end.

Fixpoint sdrop (n : nat) (s : string) : string :=
  match n, s with
  | S n', String _ s' => sdrop n' s'
  | _, _ => s
  end.

(** The last byte of [s], if any. *)
Fixpoint slast (s : string) : option ascii :=
  match s with
  | EmptyString => None
  | String c EmptyString => Some c
  | String _ s' => slast s'
  end.

(** Position of the first line feed among the first [n] bytes of [s]. *)
Fixpoint index_LF (n : nat) (s : string) : option nat :=
  match n, s with
  | S n', String c s' => if Ascii.eqb c LF then Some 0 else S <$> index_LF n' s'
  | _, _ => None
  end.

(** ** strconv *)
Module strconv.

(** The value of a decimal digit. *)
Definition digit (c : ascii) : option Z :=
  let n := nat_of_ascii c in
  if (48 <=? n) && (n <=? 57) then Some (Z.of_nat (n - 48)) else None.

Definition maxUint64 : Z := 2 ^ 64 - 1.

(** The loop of [ParseUint(s, 10, 64)]: [inr ErrRange] as soon as the
    value leaves 64 bits, [inr ErrSyntax] at the first byte that is not
    a digit, whichever comes first. *)
Fixpoint ParseUint_loop (s : string) (n : Z) : Z + numerr :=
  match s with
  | EmptyString => inl n
  | String c s' =>
      match digit c with
      | None => inr ErrSyntax
      | Some d =>
          if (n >=? maxUint64 / 10 + 1)%Z then inr ErrRange
          else if (n * 10 + d >? maxUint64)%Z then inr ErrRange
          else ParseUint_loop s' (n * 10 + d)%Z
      end
  end.

Definition ParseUint (s : string) : Z + numerr :=
  match s with
  | EmptyString => inr ErrSyntax
  | _ => ParseUint_loop s 0%Z
  end.

(** [ParseInt(s, 10, 64)], with the name [fn] it files its errors
    under. *)
Definition ParseInt_as (fn : string) (s0 : string) : Z + error :=
  match s0 with
  | EmptyString => inr (NumError fn s0 ErrSyntax)
  | String c s' =>
      let neg := Ascii.eqb c "-" in
      let s := if Ascii.eqb c "+" || Ascii.eqb c "-" then s' else s0 in
      match ParseUint s with
      | inr ErrSyntax => inr (NumError fn s0 ErrSyntax)
      | r =>
          let un := match r with inl n => n | inr _ => maxUint64 end in
          if negb neg && (un >=? 2 ^ 63)%Z then inr (NumError fn s0 ErrRange)
          else if neg && (un >? 2 ^ 63)%Z then inr (NumError fn s0 ErrRange)
          else inl (if neg then - un else un)%Z
      end
  end.

Definition ParseInt (s : string) : Z + error := ParseInt_as "ParseInt" s.

(** [Atoi]: its fast path (fewer than 19 bytes) and its slow path
    ([ParseInt(s, 10, 0)] on a 64-bit [int]) compute the same thing;
    the error carries the name [Atoi]. *)
Definition Atoi (s : string) : Z + error := ParseInt_as "Atoi" s.

(** [FormatInt(i, 10)] and [Itoa]. *)
Definition FormatInt (i : Z) : string := pretty i.
Definition Itoa (i : nat) : string := pretty (Z.of_nat i).

End strconv.

(** ** The parser: a [bufio.Reader] and what is read from it *)

(** A [bufio.Reader] is modelled by the bytes it will deliver, in
    order, followed by end of file.  A read takes a prefix off. *)
Definition reader (A : Type) : Type := string → result A * string.

Definition ret {A} (a : A) : reader A := λ s, (Ok a, s).
Definition fail {A} (e : error) : reader A := λ s, (Err e, s).
Definition panic {A} : reader A := λ s, (Panic, s).
Definition bind {A B} (m : reader A) (k : A → reader B) : reader B :=
  λ s, match m s with
       | (Ok a, s') => k a s'
       | (Err e, s') => (Err e, s')
       | (Panic, s') => (Panic, s')
       end.

Declare Scope reader_scope.
Delimit Scope reader_scope with reader.
Notation "x <- m ;; k" := (bind m (λ x, k))
  (at level 100, m at next level, right associativity) : reader_scope.
Local Open Scope reader_scope.

(** [bufio.NewReader] gives the reader a buffer of 4096 bytes. *)
Definition defaultBufSize : nat := 4096.

(** [bufio.Reader.ReadLine], the line only (the caller drops
    [isPrefix]).  A line ends at a line feed, which is dropped together
    with a carriage return before it; at the end of the stream what is
    left is a line; a run of [defaultBufSize] bytes without a line feed
    is handed out as a line, short of a final carriage return. *)
Definition ReadLine : reader string := λ s,
  match s with
  | EmptyString => (Err EOF, EmptyString)
  | _ =>
      match index_LF defaultBufSize s with
      | Some i =>
          let line := stake i s in
          let line := if bool_decide (slast line = Some CR)
                      then stake (i - 1) s else line in
          (Ok line, sdrop (S i) s)
      | None =>
          if bool_decide (String.length s < defaultBufSize) then (Ok s, EmptyString)
          else if bool_decide (slast (stake defaultBufSize s) = Some CR)
               then (Ok (stake (defaultBufSize - 1) s), sdrop (defaultBufSize - 1) s)
               else (Ok (stake defaultBufSize s), sdrop defaultBufSize s)
      end
  end.

(** [io.ReadFull(p, buf)] with [len(buf) = n]. *)
Definition ReadFull (n : nat) : reader string := λ s,
  if bool_decide (n ≤ String.length s) then (Ok (stake n s), sdrop n s)
  else match s with
       | EmptyString => (Err EOF, EmptyString)
       | _ => (Err ErrUnexpectedEOF, EmptyString)
       end.

(** [bufio.Reader.Discard(n)] *)
Definition Discard (n : nat) : reader unit := λ s,
  if bool_decide (n ≤ String.length s) then (Ok (), sdrop n s)
  else (Err EOF, EmptyString).

(** [make([]T, n)]: a negative [n] panics (makeslice: len out of
    range); otherwise the slice has [n] elements.  That the memory for
    it is there is taken for granted. *)
Definition make (n : Z) : reader nat :=
  if (n <? 0)%Z then panic else ret (Z.to_nat n).

Definition ArrayReply : ascii := "*".
Definition StringReply : ascii := "$".

Definition parseInt (b : string) : Z + error :=
  match b with
  | EmptyString => inr ErrInvalidSyntax
  | _ => strconv.Atoi b
  end.

Definition lift {A} (r : A + error) : reader A :=
  match r with inl a => ret a | inr e => fail e end.

Definition readLine : reader string := ReadLine.

Definition readArrayLength : reader Z :=
  line <- readLine;;
  match line with
  | EmptyString => fail ErrInvalidSyntax
  | String c rest =>
      if negb (Ascii.eqb c ArrayReply) then fail ErrInvalidSyntax
      else lift (parseInt rest)
  end.

Definition readString : reader string :=
  line <- readLine;;
  match line with
  | EmptyString => fail ErrInvalidSyntax
  | String c rest =>
      if negb (Ascii.eqb c StringReply) then fail ErrInvalidSyntax
      else
        length <- lift (parseInt rest);;
        n <- make length;;
        buf <- ReadFull n;;
        _ <- Discard 2;;
        ret buf
  end.

Definition readCommandName : reader string := readString.

(** The loop of [readCommandArgs], over the number of arguments still
    to read. *)
Fixpoint readCommandArgs_loop (todo : nat) : reader (list string) :=
  match todo with
  | O => ret []
  | S todo' =>
      arg <- readString;;
      args <- readCommandArgs_loop todo';;
      ret (arg :: args)
  end.

Definition readCommandArgs (length : Z) : reader (list string) :=
  n <- make length;;
  readCommandArgs_loop n.

Definition Parse : reader (string * list string) :=
  length <- readArrayLength;;
  if (length =? 0)%Z then fail ErrInvalidSyntax
  else
    name <- readCommandName;;
    args <- readCommandArgs (length - 1);;
    ret (name, args).

(** ** protocolBuilder: the reply frames *)

Definition WriteString (s : string) : string :=
  "$" +:+ strconv.Itoa (String.length s) +:+ CRLF +:+ s +:+ CRLF.

Definition WriteInt64 (i : Z) : string :=
  ":" +:+ strconv.FormatInt i +:+ CRLF.

Definition WriteStatus (s : string) : string :=
  "+" +:+ s +:+ CRLF.

(** [WriteArray] writes its header with [WriteInt64], then one bulk
    string per element. *)
Definition WriteArray (a : list string) : string :=
  WriteInt64 (Z.of_nat (length a)) +:+ foldr (λ s acc, WriteString s +:+ acc) EmptyString a.

(** ** error.go *)

(** [strings.Join(a, sep)] *)
Fixpoint Join (a : list string) (sep : string) : string :=
  match a with
  | [] => EmptyString
  | [x] => x
  | x :: a' => x +:+ sep +:+ Join a' sep
  end.

Section error_text.

(** [strconv.Quote], which [NumError.Error] wraps the offending text
    in; taken as given. *)
Variable Quote : string → string.

Definition numerr_Error (e : numerr) : string :=
  match e with
  | ErrSyntax => "invalid syntax"
  | ErrRange => "value out of range"
  end.

(** [err.Error()] *)
Definition Error (e : error) : string :=
  match e with
  | ErrInvalidSyntax => "invalid syntax"
  | ErrQuit => "quit"
  | EOF => "EOF"
  | ErrUnexpectedEOF => "unexpected EOF"
  | NumError fn num err =>
      "strconv." +:+ fn +:+ ": parsing " +:+ Quote num +:+ ": " +:+ numerr_Error err
  | wrongNumberOfArgsError command =>
      "ERR wrong number of arguments for '" +:+ command +:+ "' command"
  | wrongCommandError command args =>
      if bool_decide (0 < length args)
      then "ERR wrong command '" +:+ command +:+ "' args = " +:+ Join args " "
      else "ERR unknown command '" +:+ command +:+ "'"
  end.

Definition WriteError (err : error) : string :=
  "-" +:+ Error err +:+ CRLF.

End error_text.

(** ** commands.go *)

(** [type Status int] with its [String] method. *)
Inductive Status := OK | Pong.

Definition Status_String (s : Status) : string :=
  match s with OK => "OK" | Pong => "PONG" end.

(** The calls a command makes on its [ResponseWriter], in order.  Each
    call builds one frame with the [protocolBuilder] function of the
    same name and copies it to the connection; [ReplyRaw] is a bare
    [Write].  The connection is taken to accept what is written. *)
Inductive reply :=
| ReplyError (err : error)
| ReplyStatus (status : Status)
| ReplyInt64 (i : Z)
| ReplyArray (a : list string)
| ReplyString (s : string)
| ReplyRaw (b : string).

Section wire.

Variable Quote : string → string.

(** The bytes a reply puts on the connection: each method of
    [responseWriter] builds its frame with the [protocolBuilder]
    function of the same name and copies it out. *)
Definition wire (r : reply) : string :=
  match r with
  | ReplyError err => WriteError Quote err
  | ReplyStatus status => WriteStatus (Status_String status)
  | ReplyInt64 i => WriteInt64 i
  | ReplyArray a => WriteArray a
  | ReplyString s => WriteString s
  | ReplyRaw b => b
  end.

End wire.

(** The implementations of the interface [Command].  All but
    [QuitCommand] embed [ArgsCommand]. *)
Inductive Command :=
| CommandCommand (args : list string)
| PingCommand (args : list string)
| EchoCommand (args : list string)
| PushCommand (args : list string)
| PopCommand (args : list string)
| LengthCommand (args : list string)
| QuitCommand.

Definition Name (c : Command) : string :=
  match c with
  | CommandCommand _ => "command"
  | PingCommand _ => "ping"
  | EchoCommand _ => "echo"
  | PushCommand _ => "push"
  | PopCommand _ => "pop"
  | LengthCommand _ => "length"
  | QuitCommand => "quit"
  end.

Definition Args (c : Command) : list string :=
  match c with
  | CommandCommand args | PingCommand args | EchoCommand args
  | PushCommand args | PopCommand args | LengthCommand args => args
  | QuitCommand => []
  end.

(** [type CommandConstructor func(args []string) (Command, error)] *)
Abbreviation CommandConstructor := (list string → Command + error).

Definition NewPingCommand : CommandConstructor := λ args,
  if bool_decide (1 < length args) then inr (wrongNumberOfArgsError "ping")
  else inl (PingCommand args).

Definition NewEchoCommand : CommandConstructor := λ args,
  if bool_decide (length args ≠ 1) then inr (wrongNumberOfArgsError "echo")
  else inl (EchoCommand args).

Definition NewPushCommand : CommandConstructor := λ args,
  if bool_decide (length args ≠ 3) then inr (wrongNumberOfArgsError "push")
  else inl (PushCommand args).

Definition NewPopCommand : CommandConstructor := λ args,
  if bool_decide (length args ≠ 1) then inr (wrongNumberOfArgsError "pop")
  else inl (PopCommand args).

Definition NewLengthCommand : CommandConstructor := λ args,
  if bool_decide (length args ≠ 1) then inr (wrongNumberOfArgsError "length")
  else inl (LengthCommand args).

Definition NewQuitCommand : CommandConstructor := λ args,
  if bool_decide (length args ≠ 0) then inr (wrongNumberOfArgsError "quit")
  else inl QuitCommand.

(** The registry, as [init] fills it. *)
Definition commandLibraries : gmap string CommandConstructor :=
  <["quit" := NewQuitCommand]>
  (<["length" := NewLengthCommand]>
  (<["pop" := NewPopCommand]>
  (<["push" := NewPushCommand]>
  (<["echo" := NewEchoCommand]>
  (<["ping" := NewPingCommand]> ∅))))).

(** How a call of [Execute] ends: it returns, having made some calls on
    the writer, with an error or [nil]; or it is parked in [Dequeue]; or
    it panics. *)
Inductive execution :=
| Returns (written : list reply) (err : option error) (pq : PriorityQueueWithRouting)
| Waits (pq : PriorityQueueWithRouting)
| Panics.

(** [Execute], one case per implementation.  [CommandCommand] ranges
    over the registry in the order the map yields its keys, which Go
    leaves unspecified; here it is the order of [map_to_list]. *)
Definition Execute (c : Command) (pq : PriorityQueueWithRouting) : execution :=
  match c with
  | CommandCommand args =>
      if bool_decide (length args ≠ 0)
      then Returns [ReplyError (wrongNumberOfArgsError (Name c))] None pq
      else Returns [ReplyArray (map_to_list commandLibraries).*1] None pq
  | PingCommand args =>
      match args with
      | [] => Returns [ReplyStatus Pong] None pq
      | [msg] => Returns [ReplyString msg] None pq
      | _ => Returns [ReplyError (wrongNumberOfArgsError (Name c))] None pq
      end
  | EchoCommand args =>
      match args with
      | [msg] => Returns [ReplyString msg] None pq
      | _ => Returns [ReplyError (wrongNumberOfArgsError (Name c))] None pq
      end
  | PushCommand args =>
      match args with
      | [key; value; score] =>
          match strconv.ParseInt score with
          | inr err => Returns [] (Some err) pq
          | inl priority =>
              match Enqueue pq key {| value := value; priority := priority; index := 0 |} with
              | Some pq' => Returns [ReplyStatus OK] None pq'
              | None => Panics
              end
          end
      | _ => Returns [] (Some (wrongNumberOfArgsError "push")) pq
      end
  | PopCommand args =>
      match args with
      | [key] =>
          match Dequeue_pass pq key with
          | Some (Popped item pq') => Returns [ReplyString (value item)] None pq'
          | Some (MustWait pq') => Waits pq'
          | None => Panics
          end
      | _ => Returns [] (Some (wrongNumberOfArgsError "pop")) pq
      end
  | LengthCommand args =>
      match args with
      | [key] => Returns [ReplyInt64 (Length pq key)] None pq
      | _ => Returns [] (Some (wrongNumberOfArgsError "length")) pq
      end
  | QuitCommand => Returns [ReplyRaw CRLF] (Some ErrQuit) pq
  end.

(** [strings.ToLower] on a name of ASCII letters. *)
Definition lower (c : ascii) : ascii :=
  let n := nat_of_ascii c in
  if (65 <=? n) && (n <=? 90) then ascii_of_nat (n + 32) else c.

Fixpoint ascii_ToLower (s : string) : string :=
  match s with
  | EmptyString => EmptyString
  | String c s' => String (lower c) (ascii_ToLower s')
  end.

(** ** The command parser and the session loop (server.go) *)

Section session.

(** [strings.ToLower].  It lower-cases every Unicode letter of a UTF-8
    string; the session is modelled for any such function, and
    [ascii_ToLower] is what it does on ASCII text. *)
Variable ToLower : string → string.

(** The part of [CommandParser.ReadFrom] that follows [Parse]. *)
Definition resolve (cmd : string) (args : list string) : Command + error :=
  let cmd := ToLower cmd in
  match commandLibraries !! cmd with
  | None => inr (wrongCommandError cmd args)
  | Some constructor => constructor args
  end.

Definition ReadFrom : reader Command :=
  r <- Parse;;
  lift (resolve r.1 r.2).

(** A connection: the bytes still to come from the peer (end of file
    after them), the replies written so far, and the queue the server
    shares among its connections.  Every [ReadFrom] wraps the
    connection in a new [bufio.Reader]; the bytes are taken to arrive
    no faster than they are consumed, so that no reader is dropped with
    unread bytes in its buffer. *)
Record conn := mkConn {
  input : string;
  output : list reply;
  queue : PriorityQueueWithRouting
}.

(** How [serve] ends.  [StillServing] is exhausted fuel: the loop is
    still turning. *)
Inductive served_conn :=
| ServeReturns (err : error) (c : conn)
| ServeWaits (c : conn)
| ServePanics
| StillServing (c : conn).

(** [connContext.serve], with a context that is never cancelled. *)
Fixpoint serve (fuel : nat) (c : conn) : served_conn :=
  match fuel with
  | O => StillServing c
  | S fuel' =>
      match ReadFrom (input c) with
      | (Panic, _) => ServePanics
      | (Err err, rest) => ServeReturns err (mkConn rest (output c) (queue c))
      | (Ok command, rest) =>
          match Execute command (queue c) with
          | Panics => ServePanics
          | Waits pq => ServeWaits (mkConn rest (output c) pq)
          | Returns written (Some err) pq =>
              ServeReturns err (mkConn rest (output c ++ written) pq)
          | Returns written None pq =>
              serve fuel' (mkConn rest (output c ++ written) pq)
          end
      end
  end.

(** [errors.Is(err, ErrQuit)]: [ErrQuit] is a value made by
    [errors.New], equal to itself only, and nothing wraps it. *)
Definition is_ErrQuit (err : error) : bool :=
  match err with ErrQuit => true | _ => false end.

(** How [serveConn] ends: [Closed] is the return that runs the deferred
    [conn.Close()]. *)
Inductive session :=
| Closed (c : conn)
| Parked (c : conn)
| Crashed
| Open (c : conn).

(** [Server.serveConn]: [errors.Is(err, ErrQuit)] returns, any other
    error is written back and the loop turns again. *)
Fixpoint serveConn (fuel : nat) (c : conn) : session :=
  match fuel with
  | O => Open c
  | S fuel' =>
      match serve fuel c with
      | ServePanics => Crashed
      | ServeWaits c' => Parked c'
      | StillServing c' => Open c'
      | ServeReturns err c' =>
          if is_ErrQuit err then Closed c'
          else serveConn fuel' (mkConn (input c') (output c' ++ [ReplyError err]) (queue c'))
      end
  end.

End session.

(** * Callers running side by side

    [Enqueue] and [Dequeue] cut at their mutex operations and
    interleaved by a scheduler.  A step takes one caller from one
    [Lock], [Unlock] or [Wait] to just before the next; a caller that
    needs a mutex somebody holds, or that is asleep in [cond.Wait],
    cannot step.  [Wait] puts the caller on the notify list and lets
    go of [cond.L] in one step, as [sync.Cond] does. *)
Module sched.

(** Where a caller stands. *)
Inductive pc :=
| ELock          (* Enqueue: at pq.queueLock.Lock() *)
| EBody          (* Enqueue: holds queueLock, before heap.Push *)
| EReturned
| DLock          (* Dequeue: at pq.queueLock.Lock() *)
| DLoop          (* Dequeue: holds queueLock, at the top of the loop *)
| DCondLock      (* Dequeue: queueLock released, at cond.L.Lock() *)
| DWait          (* Dequeue: holds cond.L, at cond.Wait() *)
| DWaiting       (* Dequeue: in Wait, on the notify list, cond.L released *)
| DWoken         (* Dequeue: in Wait, notified, about to lock cond.L again *)
| DCondUnlock    (* Dequeue: Wait has returned, at cond.L.Unlock() *)
| DReturned (item : Item).

Inductive call :=
| CallEnqueue (route : string) (item : Item)
| CallDequeue (route : string).

Record thread := mkThread { what : call; at_pc : pc }.

Definition start (c : call) : thread :=
  mkThread c match c with CallEnqueue _ _ => ELock | CallDequeue _ => DLock end.

(** The queue, who holds which mutex, and the callers. *)
Record world := mkWorld {
  shared : PriorityQueueWithRouting;
  held : list (lockid * nat);
  threads : list thread
}.

Definition is_free (w : world) (l : lockid) : bool :=
  match list_find (λ p : lockid * nat, p.1 = l) (held w) with
  | Some _ => false
  | None => true
  end.

Definition acquire (l : lockid) (tid : nat) (h : list (lockid * nat)) :=
  (l, tid) :: h.

Definition release (l : lockid) (h : list (lockid * nat)) :=
  filter (λ p : lockid * nat, p.1 ≠ l) h.

(** [cond.Broadcast()]: every caller suspended on the condition
    variable of [route] is made runnable. *)
Definition Broadcast (route : string) (ts : list thread) : list thread :=
  (λ t, match what t, at_pc t with
        | CallDequeue r, DWaiting =>
            if bool_decide (r = route) then mkThread (what t) DWoken else t
        | _, _ => t
        end) <$> ts.

Definition set_pc (tid : nat) (p : pc) (ts : list thread) : list thread :=
  alter (λ t, mkThread (what t) p) tid ts.

(** One statement of caller [tid]; [None] when it cannot run. *)
Definition step (w : world) (tid : nat) : option world :=
  t ← threads w !! tid;
  match what t, at_pc t with
  | CallEnqueue route item, ELock =>
      if is_free w queueLock
      then Some (mkWorld (shared w) (acquire queueLock tid (held w))
                         (set_pc tid EBody (threads w)))
      else None
  | CallEnqueue route item, EBody =>
      pq' ← Enqueue (shared w) route item;
      Some (mkWorld pq' (release queueLock (held w))
                    (set_pc tid EReturned (Broadcast route (threads w))))
  | CallDequeue route, DLock =>
      if is_free w queueLock
      then Some (mkWorld (shared w) (acquire queueLock tid (held w))
                         (set_pc tid DLoop (threads w)))
      else None
  | CallDequeue route, DLoop =>
      a ← Dequeue_pass (shared w) route;
      match a with
      | Popped item pq' =>
          Some (mkWorld pq' (release queueLock (held w))
                        (set_pc tid (DReturned item) (threads w)))
      | MustWait pq' =>
          Some (mkWorld pq' (release queueLock (held w))
                        (set_pc tid DCondLock (threads w)))
      end
  | CallDequeue route, DCondLock =>
      cond ← notEmpty (shared w) !! route;
      if is_free w (L cond)
      then Some (mkWorld (shared w) (acquire (L cond) tid (held w))
                         (set_pc tid DWait (threads w)))
      else None
  | CallDequeue route, DWait =>
      cond ← notEmpty (shared w) !! route;
      Some (mkWorld (shared w) (release (L cond) (held w))
                    (set_pc tid DWaiting (threads w)))
  | CallDequeue route, DWoken =>
      cond ← notEmpty (shared w) !! route;
      if is_free w (L cond)
      then Some (mkWorld (shared w) (acquire (L cond) tid (held w))
                         (set_pc tid DCondUnlock (threads w)))
      else None
  | CallDequeue route, DCondUnlock =>
      cond ← notEmpty (shared w) !! route;
      Some (mkWorld (shared w) (release (L cond) (held w))
                    (set_pc tid DLock (threads w)))
  | _, _ => None
  end.

(** The callers of a schedule step in the order given. *)
Fixpoint run (schedule : list nat) (w : world) : option world :=
  match schedule with
  | [] => Some w
  | tid :: schedule' => w' ← step w tid; run schedule' w'
  end.

Definition boot (calls : list call) : world :=
  mkWorld NewPriorityQueueWithRouting [] (start <$> calls).

End sched.

(** * Notions the properties are stated with

    Nothing below this line is code of the package. *)

(** ** The binary heap of container/heap *)

(** Position of the parent of [k], as [heap.up] computes it. *)
Definition parent (k : nat) : nat := (k - 1) / 2.

(** The priority stored at position [k], if any. *)
Definition prio (h : PriorityQueue) (k : nat) : option Z := priority <$> h !! k.

(** Position [c] holds no more than position [p] (where both exist). *)
Definition le_at (h : PriorityQueue) (c p : nat) : Prop :=
  ∀ x y, prio h c = Some x → prio h p = Some y → (x ≤ y)%Z.

(** The first [n] slots are heap ordered for [Less]: no slot has a
    priority above its parent's. *)
Definition heap_upto (h : PriorityQueue) (n : nat) : Prop :=
  ∀ k, 0 < k < n → le_at h k (parent k).

Definition heap_ok (h : PriorityQueue) : Prop := heap_upto h (length h).

(** Heap ordered but for the slot [j], which may exceed its parent;
    what hangs under [j] is no larger than [j]'s parent.  This is what
    [heap.up] maintains. *)
Definition up_inv (h : PriorityQueue) (j : nat) : Prop :=
  (∀ k, 0 < k → k ≠ j → le_at h k (parent k)) ∧
  (∀ k, 0 < k → parent k = j → 0 < j → le_at h k (parent j)).

(** Heap ordered on the first [n] slots but for the slot [i], which may
    be below its children; its children are no larger than its parent.
    This is what [heap.down] maintains. *)
Definition down_inv (h : PriorityQueue) (i n : nat) : Prop :=
  (∀ k, 0 < k < n → parent k ≠ i → le_at h k (parent k)) ∧
  (∀ k, 0 < k < n → parent k = i → 0 < i → le_at h k (parent i)).

(** The transposition of [i] and [j]. *)
Definition tr (i j k : nat) : nat :=
  if decide (k = i) then j else if decide (k = j) then i else k.

(** ** Serialized runs of the routed queue *)

(** The heap behind a route; a route never used has none, which
    [Enqueue] treats as an empty one. *)
Definition queue_of (pq : PriorityQueueWithRouting) (route : string) : PriorityQueue :=
  default [] (queueMap pq !! route).

(** Every route's slice is heap ordered. *)
Definition wf (pq : PriorityQueueWithRouting) : Prop :=
  ∀ route q, queueMap pq !! route = Some q → heap_ok q.

(** A serialized run: every call takes effect before the next one
    starts.  A [Dequeue] that finds its route empty never returns, and
    the run stops there: [None]. *)
Inductive op :=
| OpEnqueue (route : string) (item : Item)
| OpDequeue (route : string).

Fixpoint run (ops : list op) (pq : PriorityQueueWithRouting)
  : option (list Item * PriorityQueueWithRouting) :=
  match ops with
  | [] => Some ([], pq)
  | OpEnqueue route item :: ops' => pq' ← Enqueue pq route item; run ops' pq'
  | OpDequeue route :: ops' =>
      '(x, pq') ← Dequeue pq route;
      '(out, pq'') ← run ops' pq';
      Some (x :: out, pq'')
  end.

Definition is_enqueue (route : string) (o : op) : bool :=
  match o with OpEnqueue r _ => bool_decide (r = route) | OpDequeue _ => false end.

Definition is_dequeue (route : string) (o : op) : bool :=
  match o with OpDequeue r => bool_decide (r = route) | OpEnqueue _ _ => false end.

(** Number of [Enqueue] (of [Dequeue]) calls on [route] in a run. *)
Definition enqueues (route : string) (ops : list op) : nat :=
  length (filter (λ o, is_enqueue route o = true) ops).

Definition dequeues (route : string) (ops : list op) : nat :=
  length (filter (λ o, is_dequeue route o = true) ops).

(** [Enqueue] of each item of [xs] in turn, all on [route]. *)
Fixpoint Enqueue_all (pq : PriorityQueueWithRouting) (route : string) (xs : list Item)
  : option PriorityQueueWithRouting :=
  match xs with
  | [] => Some pq
  | x :: xs' => pq' ← Enqueue pq route x; Enqueue_all pq' route xs'
  end.

(** [k] calls of [Dequeue] on [route], with what they returned. *)
Fixpoint Dequeue_n (k : nat) (pq : PriorityQueueWithRouting) (route : string)
  : option (list Item * PriorityQueueWithRouting) :=
  match k with
  | O => Some ([], pq)
  | S k' =>
      '(x, pq1) ← Dequeue pq route;
      '(out, pq2) ← Dequeue_n k' pq1 route;
      Some (x :: out, pq2)
  end.

(** What a client gets back that pushes [xs] to a fresh route and then
    pops as many times. *)
Definition served (route : string) (xs : list Item) : option (list (string * Z)) :=
  pq ← Enqueue_all NewPriorityQueueWithRouting route xs;
  match Dequeue_n (length xs) pq route with
  | Some (out, _) => Some (payload <$> out)
  | None => None
  end.

(** The order of service the design document describes: descending
    priority, and arrival order among equal priorities.  [insert_fifo]
    files a new arrival behind everything of the same or a higher
    priority. *)
Fixpoint insert_fifo (x : Item) (l : list Item) : list Item :=
  match l with
  | [] => [x]
  | y :: l' => if (priority x >? priority y)%Z then x :: l else y :: insert_fifo x l'
  end.

Definition fifo_order (xs : list Item) : list Item :=
  foldl (λ acc x, insert_fifo x acc) [] xs.

(** Every item returned was, when it was returned, of the highest
    priority among the items then in the route: those returned after it
    ([out]) and those never returned ([rest]). *)
Fixpoint each_highest (out rest : list Item) : Prop :=
  match out with
  | [] => True
  | x :: out' =>
      (∀ y, y ∈ out' ++ rest → (priority y ≤ priority x)%Z) ∧ each_highest out' rest
  end.

(** Every item of the slice carries its own position in [index]. *)
Definition indexed (h : PriorityQueue) : Prop :=
  ∀ k x, h !! k = Some x → index x = Z.of_nat k.

(** The queue an attempt of [Dequeue] leaves behind. *)
Definition attempt_pq (a : attempt) : PriorityQueueWithRouting :=
  match a with Popped _ pq => pq | MustWait pq => pq end.

(** The items a run enqueues on [route], in order. *)
Fixpoint enqueued_on (route : string) (ops : list op) : list Item :=
  match ops with
  | [] => []
  | OpEnqueue r item :: ops' =>
      if bool_decide (r = route) then item :: enqueued_on route ops'
      else enqueued_on route ops'
  | OpDequeue _ :: ops' => enqueued_on route ops'
  end.

(** The items the [Dequeue] calls on [route] of a run returned, picked
    from what the run returned in all ([out] has one item per
    [Dequeue], in order). *)
Fixpoint returned_on (route : string) (ops : list op) (out : list Item) : list Item :=
  match ops, out with
  | OpEnqueue _ _ :: ops', _ => returned_on route ops' out
  | OpDequeue r :: ops', x :: out' =>
      if bool_decide (r = route) then x :: returned_on route ops' out'
      else returned_on route ops' out'
  | _, _ => []
  end.

(** ** Frames and requests, as the design document describes them *)

(** The bulk-string frames of the elements of [a], one after the
    other. *)
Definition bulk_frames (a : list string) : string :=
  foldr (λ s acc, WriteString s +:+ acc) EmptyString a.

(** The array frame of the design document: a count behind [*], then
    one bulk-string frame per element. *)
Definition array_frame (a : list string) : string :=
  "*" +:+ strconv.Itoa (length a) +:+ CRLF +:+ bulk_frames a.


(** The numbers of arguments the design document allows each built-in
    command: [ping] none or one, [echo], [pop] and [length] one, [push]
    three, [command] and [quit] none. *)
Definition arity_allowed (name : string) (n : nat) : option bool :=
  if decide (name = "ping") then Some (n <=? 1)
  else if decide (name = "echo") then Some (n =? 1)
  else if decide (name = "push") then Some (n =? 3)
  else if decide (name = "pop") then Some (n =? 1)
  else if decide (name = "length") then Some (n =? 1)
  else if decide (name = "command") then Some (n =? 0)
  else if decide (name = "quit") then Some (n =? 0)
  else None.

(** A request fails validation: a built-in command with a number of
    arguments it does not allow, or a [push] whose priority is not a
    signed 64-bit integer in decimal. *)
Definition fails_validation (name : string) (args : list string) : Prop :=
  arity_allowed name (length args) = Some false ∨
  (name = "push" ∧
   ∃ key value score err,
     args = [key; value; score] ∧ strconv.ParseInt score = inr err).

(** * The binary heap of container/heap *)

Section heap_order.

Lemma parent_cases k : 0 < k → k = 2 * parent k + 1 ∨ k = 2 * parent k + 2.
Proof.
  intros Hk. unfold parent.
  pose proof (Nat.div_mod_eq (k - 1) 2) as E.
  pose proof (Nat.mod_upper_bound (k - 1) 2 ltac:(lia)) as B. lia.
Qed.

Lemma parent_of_child j k : k = 2 * j + 1 ∨ k = 2 * j + 2 → parent k = j.
Proof.
  intros H. unfold parent.
  pose proof (Nat.div_mod_eq (k - 1) 2) as E.
  pose proof (Nat.mod_upper_bound (k - 1) 2 ltac:(lia)) as B. lia.
Qed.

Lemma parent_lt k : 0 < k → parent k < k.
Proof. intros Hk. destruct (parent_cases k Hk); lia. Qed.

Lemma parent_0 : parent 0 = 0.
Proof. reflexivity. Qed.

Lemma prio_Some h k x : prio h k = Some x → k < length h.
Proof.
  unfold prio. intros H. apply lookup_lt_is_Some.
  destruct (h !! k); [eauto | discriminate].
Qed.

Lemma prio_lt h k : k < length h → ∃ x, prio h k = Some x.
Proof.
  intros H. apply lookup_lt_is_Some in H as [a Ha].
  exists (priority a). unfold prio. by rewrite Ha.
Qed.

Lemma Less_spec h i j x y :
  prio h i = Some x → prio h j = Some y → Less h i j = Some (Z.gtb x y).
Proof.
  unfold prio, Less. intros Hi Hj.
  destruct (h !! i) as [a|]; [|discriminate].
  destruct (h !! j) as [b|]; [|discriminate].
  simpl in *. congruence.
Qed.

Lemma Swap_is_Some h i j :
  i < length h → j < length h → is_Some (Swap h i j).
Proof.
  intros [a Ha]%lookup_lt_is_Some [b Hb]%lookup_lt_is_Some.
  unfold Swap. rewrite Ha, Hb. simpl. eauto.
Qed.

Lemma Swap_length h i j h' : Swap h i j = Some h' → length h' = length h.
Proof.
  unfold Swap. intros H.
  destruct (h !! i); [|discriminate]. destruct (h !! j); [|discriminate].
  simpl in H. injection H as <-. by rewrite !length_insert.
Qed.

Lemma Swap_lookup_ne h i j h' k :
  Swap h i j = Some h' → k ≠ i → k ≠ j → h' !! k = h !! k.
Proof.
  unfold Swap. intros H Hi Hj.
  destruct (h !! i); [|discriminate]. destruct (h !! j); [|discriminate].
  simpl in H. injection H as <-.
  by rewrite !list_lookup_insert_ne.
Qed.

Lemma Swap_prio h i j h' k :
  Swap h i j = Some h' → prio h' k = prio h (tr i j k).
Proof.
  unfold Swap, prio, tr. intros H.
  destruct (h !! i) as [a|] eqn:Ha; [|discriminate].
  destruct (h !! j) as [b|] eqn:Hb; [|discriminate].
  simpl in H. injection H as <-.
  pose proof (lookup_lt_Some _ _ _ Ha). pose proof (lookup_lt_Some _ _ _ Hb).
  destruct (decide (k = j)) as [->|Hkj].
  - rewrite list_lookup_insert_eq by (by rewrite length_insert).
    repeat case_decide; subst; rewrite ?Ha, ?Hb; reflexivity.
  - rewrite list_lookup_insert_ne by done.
    destruct (decide (k = i)) as [->|Hki].
    + rewrite list_lookup_insert_eq by done. by rewrite Hb.
    + by rewrite list_lookup_insert_ne.
Qed.

Lemma Swap_payload h i j h' :
  Swap h i j = Some h' → payload <$> h' ≡ₚ payload <$> h.
Proof.
  unfold Swap. intros H.
  destruct (h !! i) as [a|] eqn:Ha; [|discriminate].
  destruct (h !! j) as [b|] eqn:Hb; [|discriminate].
  simpl in H. injection H as <-.
  rewrite !list_fmap_insert.
  change (payload (set_index a (Z.of_nat j))) with (payload a).
  change (payload (set_index b (Z.of_nat i))) with (payload b).
  apply Permutation_insert_swap; rewrite list_lookup_fmap; [by rewrite Ha|by rewrite Hb].
Qed.

Lemma le_at_Swap h i j h' c p :
  Swap h i j = Some h' → le_at h (tr i j c) (tr i j p) → le_at h' c p.
Proof.
  intros H Hle x y. rewrite !(Swap_prio _ _ _ _ _ H). apply Hle.
Qed.

End heap_order.

Section heap_up_down.

Lemma le_at_trans h a b c y :
  prio h b = Some y → le_at h a b → le_at h b c → le_at h a c.
Proof.
  intros Hb H1 H2 x z Hx Hz.
  specialize (H1 x y Hx Hb). specialize (H2 y z Hb Hz). lia.
Qed.

Lemma le_at_values h a b x y :
  prio h a = Some x → prio h b = Some y → (x ≤ y)%Z → le_at h a b.
Proof. intros Ha Hb Hle x' y' Hx' Hy'. congruence. Qed.

Lemma up_inv_Swap h j x y h1 :
  0 < j → prio h j = Some x → prio h (parent j) = Some y → (x > y)%Z →
  up_inv h j → Swap h (parent j) j = Some h1 → up_inv h1 (parent j).
Proof.
  intros Hj0 Hx Hy Hgt [I1 I2] Hs.
  pose proof (parent_lt j Hj0) as Hlt.
  assert (le_at h (parent j) j) as Hij by (eapply le_at_values; eauto; lia).
  split.
  - intros k Hk Hki. apply (le_at_Swap _ _ _ _ _ _ Hs). unfold tr.
    pose proof (parent_lt k Hk).
    destruct (decide (k = j)) as [->|Hkj].
    + repeat case_decide; try lia. done.
    + repeat case_decide; try lia.
      * apply (le_at_trans h k (parent j) j y); [done| |done].
        replace (parent j) with (parent k) by done. by apply I1.
      * by apply I2.
      * by apply I1.
  - intros k Hk Hpk Hi0. apply (le_at_Swap _ _ _ _ _ _ Hs). unfold tr.
    pose proof (parent_lt k Hk). pose proof (parent_lt _ Hi0).
    repeat case_decide; try lia.
    + apply I1; [done|lia].
    + apply (le_at_trans h k (parent j) _ y); [done| |].
      * rewrite <- Hpk. by apply I1.
      * apply I1; [done|lia].
Qed.

Lemma up_S fuel h j :
  heap.up (S fuel) h j =
  if bool_decide (parent j = j) then Some h
  else lt ← Less h j (parent j);
       if negb lt then Some h
       else h' ← Swap h (parent j) j; heap.up fuel h' (parent j).
Proof. reflexivity. Qed.

Lemma up_ok fuel : ∀ h j,
  j < fuel → j < length h → up_inv h j →
  ∃ h', heap.up fuel h j = Some h' ∧ heap_ok h' ∧ length h' = length h ∧
        payload <$> h' ≡ₚ payload <$> h.
Proof.
  induction fuel as [|fuel IH]; intros h j Hf Hj Hinv; [lia|].
  rewrite up_S.
  case_bool_decide as Hp.
  - assert (j = 0) as -> by (destruct j; [done|]; pose proof (parent_lt (S j)); lia).
    exists h. split_and!; try done. intros k Hk. apply Hinv; lia.
  - assert (0 < j) as Hj0 by (destruct j; [by rewrite parent_0 in Hp | lia]).
    pose proof (parent_lt j Hj0) as Hlt.
    destruct (prio_lt h j Hj) as [x Hx].
    destruct (prio_lt h (parent j) ltac:(lia)) as [y Hy].
    rewrite (Less_spec _ _ _ _ _ Hx Hy). simpl.
    destruct (Z.gtb_spec x y) as [Hgt|Hle]; simpl.
    + destruct (Swap_is_Some h (parent j) j) as [h1 Hs]; [lia|lia|].
      rewrite Hs. simpl.
      pose proof (Swap_length _ _ _ _ Hs) as Hlen.
      destruct (IH h1 (parent j)) as (h' & Hup & Hok & Hl & Hperm); [lia|lia| |].
      * eapply up_inv_Swap; eauto. lia.
      * exists h'. split_and!; [done|done|lia|].
        by rewrite Hperm, (Swap_payload _ _ _ _ Hs).
    + exists h. split_and!; try done. intros k Hk.
      destruct (decide (k = j)) as [->|]; [|apply Hinv; lia].
      eapply le_at_values; eauto.
Qed.

Lemma down_S fuel h i n :
  heap.down (S fuel) h i n =
  if bool_decide (n ≤ 2 * i + 1) then Some h
  else
    j ← (if bool_decide (2 * i + 1 + 1 < n)
         then lt ← Less h (2 * i + 1 + 1) (2 * i + 1);
              Some (if lt : bool then 2 * i + 1 + 1 else 2 * i + 1)
         else Some (2 * i + 1));
    lt ← Less h j i;
    if negb lt then Some h
    else h' ← Swap h i j; heap.down fuel h' j n.
Proof. reflexivity. Qed.

Lemma down_inv_Swap h i j n x y h1 :
  parent j = i → 0 < j < n →
  prio h j = Some x → prio h i = Some y → (x > y)%Z →
  (∀ k, 0 < k < n → parent k = i → le_at h k j) →
  down_inv h i n → Swap h i j = Some h1 → down_inv h1 j n.
Proof.
  intros Hpj Hjn Hx Hy Hgt Hsib [I1 I2] Hs.
  pose proof (parent_lt j ltac:(lia)) as Hlt.
  assert (le_at h i j) as Hij by (eapply le_at_values; eauto; lia).
  split.
  - intros k Hk Hkj. apply (le_at_Swap _ _ _ _ _ _ Hs). unfold tr.
    pose proof (parent_lt k ltac:(lia)).
    destruct (decide (k = i)) as [Hki|Hki]; [|destruct (decide (k = j)) as [Hkj'|Hkj']].
    + rewrite Hki in *. repeat case_decide; try lia.
      apply I2; [lia|done|lia].
    + rewrite Hkj', Hpj in *. repeat case_decide; try lia. done.
    + repeat case_decide; try lia.
      * by apply Hsib.
      * by apply I1.
  - intros k Hk Hkj Hj0. apply (le_at_Swap _ _ _ _ _ _ Hs). unfold tr.
    pose proof (parent_lt k ltac:(lia)).
    rewrite Hpj. repeat case_decide; try lia.
    rewrite <- Hkj. apply I1; [done|lia].
Qed.

Lemma children_le h i n j :
  (∀ c, c = 2 * i + 1 ∨ c = 2 * i + 1 + 1 → c < n → le_at h c j) →
  ∀ k, 0 < k < n → parent k = i → le_at h k j.
Proof.
  intros H k Hk Hpk. apply H; [|lia].
  destruct (parent_cases k); lia.
Qed.

Lemma down_ok fuel : ∀ h i n,
  n ≤ length h → n - i < fuel → down_inv h i n →
  ∃ h', heap.down fuel h i n = Some h' ∧ heap_upto h' n ∧
        length h' = length h ∧ payload <$> h' ≡ₚ payload <$> h ∧
        (∀ k, n ≤ k → h' !! k = h !! k).
Proof.
  induction fuel as [|fuel IH]; intros h i n Hn Hf Hinv.
  { lia. }
  rewrite down_S.
  case_bool_decide as Hj1.
  - exists h. split_and!; try done.
    intros k Hk. apply Hinv; [done|].
    destruct (parent_cases k ltac:(lia)); lia.
  - (* the larger child *)
    assert (∃ j x, (if bool_decide (2 * i + 1 + 1 < n)
         then lt ← Less h (2 * i + 1 + 1) (2 * i + 1);
              Some (if lt : bool then 2 * i + 1 + 1 else 2 * i + 1)
         else Some (2 * i + 1)) = Some j ∧ parent j = i ∧ 0 < j < n ∧
         prio h j = Some x ∧ (∀ k, 0 < k < n → parent k = i → le_at h k j))
      as (j & x & -> & Hpj & Hjn & Hx & Hsib).
    { destruct (prio_lt h (2 * i + 1) ltac:(lia)) as [x1 Hx1].
      case_bool_decide as Hj2.
      - destruct (prio_lt h (2 * i + 1 + 1) ltac:(lia)) as [x2 Hx2].
        rewrite (Less_spec _ _ _ _ _ Hx2 Hx1). simpl.
        destruct (Z.gtb_spec x2 x1).
        + exists (2 * i + 1 + 1), x2. split_and!; try done; try lia.
          { apply parent_of_child. lia. }
          apply children_le. intros c [->| ->] Hc; eapply le_at_values; eauto; lia.
        + exists (2 * i + 1), x1. split_and!; try done; try lia.
          { apply parent_of_child. lia. }
          apply children_le. intros c [->| ->] Hc; eapply le_at_values; eauto; lia.
      - exists (2 * i + 1), x1. split_and!; try done; try lia.
        { apply parent_of_child. lia. }
        apply children_le. intros c [->| ->] Hc; [eapply le_at_values; eauto; lia | lia]. }
    simpl.
    pose proof (parent_lt j ltac:(lia)) as Hlt. rewrite Hpj in Hlt.
    destruct (prio_lt h i ltac:(lia)) as [y Hy].
    rewrite (Less_spec _ _ _ _ _ Hx Hy). simpl.
    destruct (Z.gtb_spec x y) as [Hgt|Hle]; simpl.
    + destruct (Swap_is_Some h i j) as [h1 Hs]; [lia|lia|].
      rewrite Hs. simpl.
      pose proof (Swap_length _ _ _ _ Hs) as Hlen.
      destruct (IH h1 j n) as (h' & Hd & Hok & Hl & Hperm & Hrest); [lia|lia| |].
      * eapply down_inv_Swap; eauto. lia.
      * exists h'. split_and!; [done|done|lia| |].
        -- by rewrite Hperm, (Swap_payload _ _ _ _ Hs).
        -- intros k Hk. rewrite Hrest by done.
           apply (Swap_lookup_ne _ _ _ _ _ Hs); lia.
    + exists h. split_and!; try done. intros k Hk.
      destruct (decide (parent k = i)) as [Hpk|Hpk]; [|by apply Hinv].
      rewrite Hpk. eapply le_at_trans; [exact Hx|by apply Hsib|].
      eapply le_at_values; eauto.
Qed.

Lemma up_total fuel : ∀ h j,
  j < fuel → j < length h →
  ∃ h', heap.up fuel h j = Some h' ∧ length h' = length h ∧
        payload <$> h' ≡ₚ payload <$> h.
Proof.
  induction fuel as [|fuel IH]; intros h j Hf Hj; [lia|].
  rewrite up_S. case_bool_decide as Hp; [by exists h|].
  assert (0 < j) as Hj0 by (destruct j; [by rewrite parent_0 in Hp | lia]).
  pose proof (parent_lt j Hj0) as Hlt.
  destruct (prio_lt h j Hj) as [x Hx].
  destruct (prio_lt h (parent j) ltac:(lia)) as [y Hy].
  rewrite (Less_spec _ _ _ _ _ Hx Hy). simpl.
  destruct (Z.gtb x y); simpl; [|by exists h].
  destruct (Swap_is_Some h (parent j) j) as [h1 Hs]; [lia|lia|].
  rewrite Hs. simpl.
  pose proof (Swap_length _ _ _ _ Hs) as Hlen.
  destruct (IH h1 (parent j)) as (h' & Hup & Hl & Hperm); [lia|lia|].
  exists h'. split_and!; [done|lia|].
  by rewrite Hperm, (Swap_payload _ _ _ _ Hs).
Qed.

Lemma heap_ok_nil : heap_ok [].
Proof. intros k Hk. simpl in Hk. lia. Qed.

Lemma Init_nil : heap.Init [] = Some [].
Proof. reflexivity. Qed.

(** In a heap-ordered slice the root carries the largest priority. *)
Lemma heap_ok_root h r :
  heap_ok h → prio h 0 = Some r → ∀ k x, prio h k = Some x → (x ≤ r)%Z.
Proof.
  intros Hok Hr k. induction k as [k IH] using lt_wf_ind. intros x Hx.
  destruct (decide (k = 0)) as [->|Hk0]; [by simplify_eq|].
  pose proof (parent_lt k ltac:(lia)) as Hlt.
  pose proof (prio_Some _ _ _ Hx) as Hlen.
  destruct (prio_lt h (parent k) ltac:(lia)) as [y Hy].
  specialize (IH (parent k) Hlt y Hy).
  specialize (Hok k ltac:(lia) x y Hx Hy). lia.
Qed.

Lemma Push_payload h x : payload <$> Push h x = (payload <$> h) ++ [payload x].
Proof. unfold Push. by rewrite fmap_app. Qed.

Lemma heap_Push_total h x :
  ∃ h', heap.Push h x = Some h' ∧ length h' = S (length h) ∧
        payload <$> h' ≡ₚ payload x :: (payload <$> h).
Proof.
  unfold heap.Push, Len.
  assert (length (Push h x) = S (length h)) as Hlen
    by (unfold Push; rewrite length_app; simpl; lia).
  destruct (up_total (S (length (Push h x))) (Push h x) (length (Push h x) - 1))
    as (h' & Hup & Hl & Hperm); [lia|lia|].
  exists h'. split_and!; [done|lia|].
  rewrite Hperm, Push_payload. by rewrite Permutation_app_comm.
Qed.

Lemma heap_Push_ok h x h' :
  heap_ok h → heap.Push h x = Some h' → heap_ok h'.
Proof.
  unfold heap.Push, Len. cbv zeta. intros Hok Hpush.
  assert (length (Push h x) = S (length h)) as Hlen
    by (unfold Push; rewrite length_app; simpl; lia).
  destruct (up_ok (S (length (Push h x))) (Push h x) (length (Push h x) - 1))
    as (h'' & Hup & Hok' & _);
    [lia|lia| |rewrite Hup in Hpush; by injection Hpush as <-].
  rewrite Hlen. replace (S (length h) - 1) with (length h) by lia.
  assert (∀ k, k < length h → prio (Push h x) k = prio h k) as Hold.
  { intros k Hk. unfold prio, Push. by rewrite lookup_app_l. }
  split.
  - intros k Hk Hne a b Ha Hb.
    pose proof (prio_Some _ _ _ Ha) as Hka. rewrite Hlen in Hka.
    pose proof (parent_lt k Hk).
    rewrite Hold in Ha, Hb by lia. apply (Hok k ltac:(lia) a b Ha Hb).
  - intros k Hk Hpk _ a b Ha Hb.
    pose proof (prio_Some _ _ _ Ha) as Hka. rewrite Hlen in Hka.
    pose proof (parent_lt k Hk). lia.
Qed.

Lemma bind_Some_l {A B} (x : A) (f : A → option B) : Some x ≫= f = f x.
Proof. reflexivity. Qed.

Lemma heap_Pop_ok h :
  heap_ok h → 0 < length h →
  ∃ x h', heap.Pop h = Some (x, h') ∧ heap_ok h' ∧
          length h = S (length h') ∧
          payload <$> h ≡ₚ payload x :: (payload <$> h') ∧
          (∀ y, y ∈ h → (priority y ≤ priority x)%Z).
Proof.
  intros Hok Hpos. unfold heap.Pop, Len. cbv zeta.
  set (n := length h - 1).
  destruct (Swap_is_Some h 0 n) as [h1 Hs]; [lia|lia|].
  rewrite Hs, bind_Some_l.
  pose proof (Swap_length _ _ _ _ Hs) as Hlen1.
  destruct (down_ok (S n) h1 0 n) as (h2 & Hd & Hup & Hlen2 & Hperm & Hrest);
    [lia|lia| |].
  { split; [|intros; lia].
    intros k Hk Hpk. apply (le_at_Swap _ _ _ _ _ _ Hs). unfold tr.
    pose proof (parent_lt k ltac:(lia)).
    repeat case_decide; try lia. apply Hok. lia. }
  rewrite Hd, bind_Some_l.
  destruct (lookup_lt_is_Some_2 h 0 Hpos) as [r Hr].
  assert (prio h2 n = Some (priority r)) as Hn.
  { unfold prio. rewrite Hrest by lia. fold (prio h1 n).
    rewrite (Swap_prio _ _ _ _ _ Hs).
    assert (tr 0 n n = 0) as -> by (unfold tr; repeat case_decide; lia).
    unfold prio. by rewrite Hr. }
  unfold prio in Hn. destruct (h2 !! n) as [item|] eqn:Hitem; [|discriminate].
  simpl in Hn. injection Hn as Hprio.
  unfold Pop. replace (length h2) with (S n) by lia. rewrite Hitem. simpl.
  exists (set_index item (-1)), (take n h2).
  assert (h2 = take n h2 ++ [item]) as Hsplit.
  { rewrite <- (take_drop_middle h2 n item Hitem) at 1.
    by rewrite drop_ge by lia. }
  split_and!; [done| | | |].
  - intros k Hk. rewrite length_take in Hk.
    pose proof (parent_lt k ltac:(lia)).
    intros a b. unfold prio. rewrite !lookup_take_lt by lia. apply Hup. lia.
  - rewrite length_take. lia.
  - rewrite <- (Swap_payload _ _ _ _ Hs), <- Hperm.
    rewrite Hsplit at 1. rewrite fmap_app. simpl.
    by rewrite Permutation_app_comm.
  - intros y [k Hy]%list_elem_of_lookup. simpl. rewrite Hprio.
    apply (heap_ok_root h (priority r) Hok) with k; unfold prio.
    + by rewrite Hr.
    + by rewrite Hy.
Qed.

End heap_up_down.

(** * Serialized runs of the routed queue *)

Section routed_queue.

Lemma wf_New : wf NewPriorityQueueWithRouting.
Proof. intros route q. unfold NewPriorityQueueWithRouting. simpl. by rewrite lookup_empty. Qed.

Lemma wf_queue_of pq route : wf pq → heap_ok (queue_of pq route).
Proof.
  intros Hwf. unfold queue_of.
  destruct (queueMap pq !! route) as [q|] eqn:E; simpl; [by eapply Hwf|apply heap_ok_nil].
Qed.

Lemma Enqueue_unfold pq route item :
  Enqueue pq route item =
  queue' ← heap.Push (queue_of pq route) item;
  Some {| queueMap := <[route := queue']> (queueMap pq);
          notEmpty := match notEmpty pq !! route with
                      | Some _ => notEmpty pq
                      | None => <[route := mkCond queueLock]> (notEmpty pq)
                      end |}.
Proof.
  unfold Enqueue, queue_of. destruct (queueMap pq !! route); [done|].
  by rewrite Init_nil.
Qed.

(** [Enqueue] never panics, whatever the state. *)
Lemma Enqueue_total pq route item :
  ∃ pq' q', Enqueue pq route item = Some pq' ∧
            heap.Push (queue_of pq route) item = Some q' ∧
            queueMap pq' = <[route := q']> (queueMap pq).
Proof.
  rewrite Enqueue_unfold.
  destruct (heap_Push_total (queue_of pq route) item) as (q' & Hq' & _).
  rewrite Hq', bind_Some_l. eauto.
Qed.

Lemma Enqueue_wf pq route item pq' :
  wf pq → Enqueue pq route item = Some pq' → wf pq'.
Proof.
  intros Hwf He.
  destruct (Enqueue_total pq route item) as (pq1 & q' & He1 & Hq' & Hmap).
  rewrite He in He1. injection He1 as <-.
  intros r q. rewrite Hmap. destruct (decide (route = r)) as [->|Hne].
  - rewrite lookup_insert_eq. intros [= <-].
    eapply heap_Push_ok; [|exact Hq']. by apply wf_queue_of.
  - rewrite lookup_insert_ne by done. apply Hwf.
Qed.

Lemma Dequeue_Some pq route x pq' :
  Dequeue pq route = Some (x, pq') →
  ∃ q q', queueMap pq !! route = Some q ∧ 0 < length q ∧
          heap.Pop q = Some (x, q') ∧
          queueMap pq' = <[route := q']> (queueMap pq) ∧
          notEmpty pq' = notEmpty pq.
Proof.
  unfold Dequeue, Dequeue_pass, Len.
  destruct (queueMap pq !! route) as [q|]; [|discriminate].
  case_bool_decide as Hlen; [|discriminate].
  destruct (heap.Pop q) as [[item q']|] eqn:Hpop; [|discriminate].
  simpl. intros [= <- <-]. exists q, q'. by split_and!.
Qed.

(** On a route that holds an item, [Dequeue] returns at once. *)
Lemma Dequeue_nonempty pq route q :
  heap_ok q → queueMap pq !! route = Some q → 0 < length q →
  ∃ x q', Dequeue pq route =
            Some (x, {| queueMap := <[route := q']> (queueMap pq);
                        notEmpty := notEmpty pq |}) ∧
          heap.Pop q = Some (x, q').
Proof.
  intros Hok Hq Hlen. unfold Dequeue, Dequeue_pass, Len. rewrite Hq.
  rewrite bool_decide_eq_true_2 by done.
  destruct (heap_Pop_ok q Hok Hlen) as (x & q' & Hpop & _).
  rewrite Hpop. simpl. eauto.
Qed.

Lemma Dequeue_wf pq route x pq' :
  wf pq → Dequeue pq route = Some (x, pq') → wf pq'.
Proof.
  intros Hwf (q & q' & Hq & Hlen & Hpop & Hmap & _)%Dequeue_Some.
  destruct (heap_Pop_ok q (Hwf _ _ Hq) Hlen) as (x1 & q1 & Hpop1 & Hok1 & _).
  rewrite Hpop in Hpop1. injection Hpop1 as <- <-.
  intros r q0. rewrite Hmap. destruct (decide (route = r)) as [->|Hne].
  - rewrite lookup_insert_eq. by intros [= <-].
  - rewrite lookup_insert_ne by done. apply Hwf.
Qed.

Lemma Length_queue_of pq route : Length pq route = Z.of_nat (length (queue_of pq route)).
Proof. unfold Length, queue_of, Len. by destruct (queueMap pq !! route). Qed.

Lemma Length_New route : Length NewPriorityQueueWithRouting route = 0%Z.
Proof. reflexivity. Qed.

Lemma Length_Enqueue pq route item pq' r :
  Enqueue pq route item = Some pq' →
  Length pq' r = (Length pq r + if bool_decide (route = r) then 1 else 0)%Z.
Proof.
  intros He.
  destruct (Enqueue_total pq route item) as (pq1 & q' & He1 & Hq' & Hmap).
  rewrite He in He1. injection He1 as <-.
  destruct (heap_Push_total (queue_of pq route) item) as (q1 & Hq1 & Hlen & _).
  rewrite Hq' in Hq1. injection Hq1 as <-.
  rewrite !Length_queue_of. unfold queue_of at 1. rewrite Hmap.
  case_bool_decide as Hr.
  - subst r. rewrite lookup_insert_eq. simpl. lia.
  - rewrite lookup_insert_ne by done. fold (queue_of pq r). lia.
Qed.

Lemma Length_Dequeue pq route x pq' r :
  wf pq → Dequeue pq route = Some (x, pq') →
  Length pq' r = (Length pq r - if bool_decide (route = r) then 1 else 0)%Z.
Proof.
  intros Hwf Hd.
  destruct (Dequeue_Some _ _ _ _ Hd) as (q & q' & Hq & Hlen & Hpop & Hmap & _).
  destruct (heap_Pop_ok q (Hwf _ _ Hq) Hlen) as (x1 & q1 & Hpop1 & _ & Hl & _).
  rewrite Hpop in Hpop1. injection Hpop1 as <- <-.
  rewrite !Length_queue_of. unfold queue_of. rewrite Hmap.
  case_bool_decide as Hr.
  - subst r. rewrite lookup_insert_eq, Hq. simpl. lia.
  - rewrite lookup_insert_ne by done. lia.
Qed.

Lemma run_Length ops : ∀ pq out pq' r,
  wf pq → run ops pq = Some (out, pq') →
  Length pq' r =
    (Length pq r + Z.of_nat (enqueues r ops) - Z.of_nat (dequeues r ops))%Z.
Proof.
  unfold enqueues, dequeues.
  induction ops as [|[route item|route] ops IH]; intros pq out pq' r Hwf Hrun.
  - simpl in Hrun. injection Hrun as <- <-. simpl. lia.
  - simpl in Hrun.
    destruct (Enqueue pq route item) as [pq1|] eqn:He; [|discriminate].
    simpl in Hrun.
    rewrite (IH _ _ _ r (Enqueue_wf _ _ _ _ Hwf He) Hrun).
    rewrite (Length_Enqueue _ _ _ _ r He).
    rewrite !filter_cons. simpl.
    case_bool_decide; repeat case_decide; simpl; try done; lia.
  - simpl in Hrun.
    destruct (Dequeue pq route) as [[x pq1]|] eqn:Hd; [|discriminate].
    simpl in Hrun.
    destruct (run ops pq1) as [[out1 pq2]|] eqn:Hr; [|discriminate].
    simpl in Hrun. injection Hrun as <- <-.
    rewrite (IH _ _ _ r (Dequeue_wf _ _ _ _ Hwf Hd) Hr).
    rewrite (Length_Dequeue _ _ _ _ r Hwf Hd).
    rewrite !filter_cons. simpl.
    case_bool_decide; repeat case_decide; simpl; try done; lia.
Qed.

(** C8. [Length] of a route that was never used is 0; after a serialized
    run in which every call returned, [Length] of a route is the number
    of [Enqueue] calls on it minus the number of [Dequeue] calls on it
    (whatever was done to other routes in between). *)
Theorem Length_counts ops out pq route :
  run ops NewPriorityQueueWithRouting = Some (out, pq) →
  Length NewPriorityQueueWithRouting route = 0%Z ∧
  dequeues route ops ≤ enqueues route ops ∧
  Length pq route =
    (Z.of_nat (enqueues route ops) - Z.of_nat (dequeues route ops))%Z.
Proof.
  intros Hrun.
  pose proof (run_Length ops _ _ _ route wf_New Hrun) as H.
  rewrite Length_New in H.
  assert (0 ≤ Length pq route)%Z by (rewrite Length_queue_of; lia).
  split_and!; [done|lia|lia].
Qed.

Lemma Length_counts_witness :
  let a := mkItem "a" 5 0 in
  let ops := [OpEnqueue "q" a; OpEnqueue "p" a; OpEnqueue "q" a; OpDequeue "q"] in
  ∃ out pq, run ops NewPriorityQueueWithRouting = Some (out, pq) ∧
            Length pq "q" = 1%Z ∧ Length pq "p" = 1%Z ∧ Length pq "r" = 0%Z.
Proof.
  intros a ops.
  destruct (run ops NewPriorityQueueWithRouting) as [[out pq]|] eqn:Hrun;
    [|vm_compute in Hrun; discriminate].
  exists out, pq. split; [done|].
  split_and!.
  - by destruct (Length_counts ops out pq "q" Hrun) as (_ & _ & ->).
  - by destruct (Length_counts ops out pq "p" Hrun) as (_ & _ & ->).
  - by destruct (Length_counts ops out pq "r" Hrun) as (_ & _ & ->).
Defined.


Lemma Enqueue_all_ok route xs : ∀ pq,
  wf pq →
  ∃ pq', Enqueue_all pq route xs = Some pq' ∧ wf pq' ∧
         payload <$> queue_of pq' route ≡ₚ payload <$> (queue_of pq route ++ xs).
Proof.
  induction xs as [|x xs IH]; intros pq Hwf.
  - exists pq. by rewrite app_nil_r.
  - simpl.
    destruct (Enqueue_total pq route x) as (pq1 & q' & He & Hq' & Hmap).
    rewrite He, bind_Some_l.
    destruct (IH pq1 (Enqueue_wf _ _ _ _ Hwf He)) as (pq' & Hall & Hwf' & Hperm).
    exists pq'. split_and!; [done|done|].
    rewrite Hperm.
    destruct (heap_Push_total (queue_of pq route) x) as (q1 & Hq1 & _ & Hp).
    rewrite Hq' in Hq1. injection Hq1 as <-.
    unfold queue_of at 1. rewrite Hmap, lookup_insert_eq. simpl.
    rewrite !fmap_app, Hp. simpl. by rewrite Permutation_middle.
Qed.

Lemma payload_priority (x y : Item) : payload x = payload y → priority x = priority y.
Proof. unfold payload. congruence. Qed.

Lemma Dequeue_n_ok route k : ∀ pq,
  wf pq → k ≤ length (queue_of pq route) →
  ∃ out pq', Dequeue_n k pq route = Some (out, pq') ∧ wf pq' ∧ length out = k ∧
             payload <$> queue_of pq route ≡ₚ payload <$> (out ++ queue_of pq' route) ∧
             each_highest out (queue_of pq' route).
Proof.
  induction k as [|k IH]; intros pq Hwf Hk.
  - exists [], pq. by split_and!.
  - unfold queue_of in Hk.
    destruct (queueMap pq !! route) as [q|] eqn:Hq; simpl in Hk; [|lia].
    destruct (Dequeue_nonempty pq route q (Hwf _ _ Hq) Hq ltac:(lia))
      as (x & q' & Hd & Hpop).
    destruct (heap_Pop_ok q (Hwf _ _ Hq) ltac:(lia))
      as (x1 & q1 & Hpop1 & _ & Hlen & Hperm & Hmax).
    rewrite Hpop in Hpop1. injection Hpop1 as <- <-.
    set (pq1 := {| queueMap := <[route:=q']> (queueMap pq); notEmpty := notEmpty pq |}) in *.
    assert (queue_of pq1 route = q') as Hq1
      by (unfold queue_of, pq1; simpl; by rewrite lookup_insert_eq).
    destruct (IH pq1) as (out & pq' & Hn & Hwf' & Hlo & Hperm' & Hhi).
    { eapply Dequeue_wf; eauto. }
    { rewrite Hq1. lia. }
    exists (x :: out), pq'.
    change (Dequeue_n (S k) pq route) with
      ('(x, pq1) ← Dequeue pq route; '(out, pq2) ← Dequeue_n k pq1 route;
       Some (x :: out, pq2)).
    rewrite Hd, bind_Some_l. cbv beta iota. rewrite Hn, bind_Some_l.
    rewrite Hq1 in Hperm'.
    assert (queue_of pq route = q) as -> by (unfold queue_of; by rewrite Hq).
    split_and!; [done|done|simpl; lia| |].
    + rewrite Hperm. simpl. by rewrite Hperm'.
    + split; [|done]. intros y Hy.
      assert (payload y ∈ payload <$> q) as Hin.
      { rewrite Hperm, Hperm'. apply elem_of_cons. right.
        by apply list_elem_of_fmap_2. }
      apply list_elem_of_fmap in Hin as (y0 & Hpay & Hy0).
      rewrite (payload_priority _ _ Hpay). by apply Hmax.
Qed.

(** C1, as the code has it.  After any number of [Enqueue] calls on a
    fresh route, [k] calls of [Dequeue] (no more than there are items)
    all return; the items returned and the items left are exactly the
    items enqueued; and every item returned had, when it was returned,
    the highest priority among the items then in the route.  Nothing is
    promised about the order among items of equal priority. *)
Theorem Dequeue_returns_highest route xs k :
  k ≤ length xs →
  ∃ pq out pq',
    Enqueue_all NewPriorityQueueWithRouting route xs = Some pq ∧
    Dequeue_n k pq route = Some (out, pq') ∧
    length out = k ∧
    payload <$> (out ++ queue_of pq' route) ≡ₚ payload <$> xs ∧
    each_highest out (queue_of pq' route).
Proof.
  intros Hk.
  destruct (Enqueue_all_ok route xs _ wf_New) as (pq & Hall & Hwf & Hperm).
  change (queue_of NewPriorityQueueWithRouting route) with (@nil Item) in Hperm.
  simpl in Hperm.
  destruct (Dequeue_n_ok route k pq Hwf) as (out & pq' & Hn & _ & Hlen & Hperm' & Hhi).
  { apply Permutation_length in Hperm. rewrite !length_fmap in Hperm. lia. }
  exists pq, out, pq'. split_and!; try done.
  by rewrite <- Hperm', Hperm.
Qed.

Lemma Dequeue_returns_highest_witness :
  ∃ pq out pq',
    Enqueue_all NewPriorityQueueWithRouting "q"
      [mkItem "v1" 1 0; mkItem "v2" 1 0; mkItem "v3" 3 0] = Some pq ∧
    Dequeue_n 2 pq "q" = Some (out, pq') ∧
    length out = 2 ∧
    payload <$> (out ++ queue_of pq' "q") ≡ₚ
      payload <$> [mkItem "v1" 1 0; mkItem "v2" 1 0; mkItem "v3" 3 0] ∧
    each_highest out (queue_of pq' "q").
Proof.
  apply (Dequeue_returns_highest "q"
           [mkItem "v1" 1 0; mkItem "v2" 1 0; mkItem "v3" 3 0] 2).
  simpl. lia.
Defined.

(** C1, as the design document has it, fails: three items of one
    priority pushed as a, b, c come back as a, c, b, where arrival order
    would be a, b, c. *)
Lemma equal_priorities_not_fifo :
  let xs := [mkItem "a" 1 0; mkItem "b" 1 0; mkItem "c" 1 0] in
  served "q" xs = Some [("a", 1%Z); ("c", 1%Z); ("b", 1%Z)] ∧
  payload <$> fifo_order xs = [("a", 1%Z); ("b", 1%Z); ("c", 1%Z)] ∧
  served "q" xs ≠ Some (payload <$> fifo_order xs).
Proof.
  split_and!; [by vm_compute|by vm_compute|].
  vm_compute. discriminate.
Qed.


End routed_queue.

(** * The codec, the commands and the session *)

Section codec_facts.

Lemma append_cons x (a b : string) : String x a +:+ b = String x (a +:+ b).
Proof. reflexivity. Qed.

Lemma append_assoc (a b c : string) : (a +:+ b) +:+ c = a +:+ b +:+ c.
Proof. induction a as [|x a IH]; [done|]. by rewrite !append_cons, IH. Qed.

(** C3.  [WriteArray] opens the frame with the integer marker [:], not
    with the array marker [*]: what it builds for [a] is
    [:<count>\r\n] followed by the bulk strings, and that is never the
    array frame of [a]; for the one-element array of "ping" it is
    [:1\r\n$4\r\nping\r\n]. *)
Theorem WriteArray_opens_with_colon :
  (∀ a, WriteArray a = ":" +:+ strconv.Itoa (length a) +:+ CRLF +:+ bulk_frames a) ∧
  (∀ a, WriteArray a ≠ array_frame a) ∧
  WriteArray ["ping"] = ":1" +:+ CRLF +:+ "$4" +:+ CRLF +:+ "ping" +:+ CRLF ∧
  array_frame ["ping"] = "*1" +:+ CRLF +:+ "$4" +:+ CRLF +:+ "ping" +:+ CRLF.
Proof.
  split_and!.
  - intros a. unfold WriteArray, WriteInt64, strconv.FormatInt, strconv.Itoa.
    fold (bulk_frames a). by rewrite !append_assoc.
  - intros a. unfold WriteArray, WriteInt64, array_frame.
    rewrite !append_cons. discriminate.
  - by vm_compute.
  - by vm_compute.
Qed.

(** C4.  A bulk-string header with a negative length is read without
    complaint by [parseInt]; the [make] that follows panics.  So does
    [Parse] on a request whose only string is headed [$-1]. *)
Theorem negative_bulk_length_panics :
  parseInt "-1" = inl (-1)%Z ∧
  (∀ rest, readString ("$-1" +:+ CRLF +:+ rest) = (Panic, rest)) ∧
  Parse ("*1" +:+ CRLF +:+ "$-1" +:+ CRLF) = (Panic, EmptyString).
Proof.
  split_and!; [by vm_compute| |by vm_compute].
  intros rest. by vm_compute.
Qed.

(** The other half of C4 does hold: a length that is not a number is an
    error, [strconv]'s. *)
Lemma non_numeric_bulk_length_is_error rest :
  readString ("$x" +:+ CRLF +:+ rest) = (Err (NumError "Atoi" "x" ErrSyntax), rest).
Proof. by vm_compute. Qed.

Lemma Parse_zero_length s s' :
  readArrayLength s = (Ok 0%Z, s') → Parse s = (Err ErrInvalidSyntax, s').
Proof. intros H. unfold Parse, bind. by rewrite H. Qed.

(** C9.  A request whose header declares an array of no elements is
    refused with [ErrInvalidSyntax]; no command name is read, none is
    produced. *)
Theorem Parse_empty_array s s' :
  readArrayLength s = (Ok 0%Z, s') → Parse s = (Err ErrInvalidSyntax, s').
Proof. apply Parse_zero_length. Qed.

Lemma Parse_empty_array_witness :
  Parse ("*0" +:+ CRLF +:+ "$4" +:+ CRLF +:+ "ping" +:+ CRLF) =
    (Err ErrInvalidSyntax, "$4" +:+ CRLF +:+ "ping" +:+ CRLF).
Proof. apply Parse_empty_array. by vm_compute. Defined.

(** However the zero is written. *)
Lemma Parse_star_zero rest :
  Parse ("*0" +:+ CRLF +:+ rest) = (Err ErrInvalidSyntax, rest) ∧
  Parse ("*-0" +:+ CRLF +:+ rest) = (Err ErrInvalidSyntax, rest) ∧
  Parse ("*000" +:+ CRLF +:+ rest) = (Err ErrInvalidSyntax, rest).
Proof. split_and!; apply Parse_zero_length; by vm_compute. Qed.

Lemma ParseInt_as_error fn s e :
  strconv.ParseInt_as fn s = inr e → ∃ k, e = NumError fn s k.
Proof.
  unfold strconv.ParseInt_as. destruct s as [|c s]; [intros [= <-]; eauto|].
  cbv zeta.
  destruct (strconv.ParseUint _) as [n|[]];
    repeat case_match; intros [=]; subst; eauto.
Qed.














End codec_facts.

Section session_facts.

Variable ToLower : string → string.

Lemma serve_S fuel c :
  serve ToLower (S fuel) c =
  match ReadFrom ToLower (input c) with
  | (Panic, _) => ServePanics
  | (Err err, rest) => ServeReturns err (mkConn rest (output c) (queue c))
  | (Ok command, rest) =>
      match Execute command (queue c) with
      | Panics => ServePanics
      | Waits pq => ServeWaits (mkConn rest (output c) pq)
      | Returns written (Some err) pq =>
          ServeReturns err (mkConn rest (output c ++ written) pq)
      | Returns written None pq =>
          serve ToLower fuel (mkConn rest (output c ++ written) pq)
      end
  end.
Proof. reflexivity. Qed.

Lemma serveConn_S fuel c :
  serveConn ToLower (S fuel) c =
  match serve ToLower (S fuel) c with
  | ServePanics => Crashed
  | ServeWaits c' => Parked c'
  | StillServing c' => Open c'
  | ServeReturns err c' =>
      if is_ErrQuit err then Closed c'
      else serveConn ToLower fuel
             (mkConn (input c') (output c' ++ [ReplyError err]) (queue c'))
  end.
Proof. reflexivity. Qed.

Lemma ReadFrom_Parse_Err s err rest :
  Parse s = (Err err, rest) → ReadFrom ToLower s = (Err err, rest).
Proof. intros H. unfold ReadFrom, bind. by rewrite H. Qed.

Lemma ReadFrom_Parse_Ok s name args rest :
  Parse s = (Ok (name, args), rest) →
  ReadFrom ToLower s = match resolve ToLower name args with
                       | inl command => (Ok command, rest)
                       | inr err => (Err err, rest)
                       end.
Proof.
  intros H. unfold ReadFrom, bind. rewrite H. simpl.
  by destruct (resolve ToLower name args).
Qed.

(** Once the peer has nothing more to send, every turn of [serveConn]
    reads end of file, writes it back as an error and turns again. *)
Lemma serveConn_at_EOF fuel : ∀ out pq,
  serveConn ToLower fuel (mkConn EmptyString out pq) =
  Open (mkConn EmptyString (out ++ replicate fuel (ReplyError EOF)) pq).
Proof.
  induction fuel as [|fuel IH]; intros out pq.
  - simpl. by rewrite app_nil_r.
  - rewrite serveConn_S, serve_S. simpl input.
    rewrite (ReadFrom_Parse_Err EmptyString EOF EmptyString) by reflexivity.
    simpl. rewrite IH. by rewrite <- app_assoc.
Qed.


(** C2.  A connection that receives a line that is no frame header,
    and then nothing, is never closed: the first turn of [serveConn]
    answers the framing error, every later turn reads and answers end
    of file, and however long the loop has run it is still running. *)
Theorem framing_error_never_closes fuel pq :
  serveConn ToLower (S fuel) (mkConn ("hello" +:+ CRLF) [] pq) =
    Open (mkConn EmptyString (ReplyError ErrInvalidSyntax :: replicate fuel (ReplyError EOF)) pq) ∧
  ∀ n c, serveConn ToLower n (mkConn ("hello" +:+ CRLF) [] pq) ≠ Closed c.
Proof.
  assert (∀ f, serveConn ToLower (S f) (mkConn ("hello" +:+ CRLF) [] pq) =
    Open (mkConn EmptyString (ReplyError ErrInvalidSyntax :: replicate f (ReplyError EOF)) pq)) as H.
  { intros f. rewrite serveConn_S, serve_S. simpl input.
    rewrite (ReadFrom_Parse_Err _ ErrInvalidSyntax EmptyString) by (by vm_compute).
    simpl. by rewrite serveConn_at_EOF. }
  split; [apply H|].
  intros [|n] c; [discriminate|]. rewrite H. discriminate.
Qed.

End session_facts.

(** C5.  [init] registers six names, and [command] is not one of them:
    the registry has no constructor for it, no function builds a
    [CommandCommand], and a request for [command] comes back from
    [serve] as the error for an unknown command, with nothing
    written. *)
Theorem command_is_not_registered :
  commandLibraries !! "command" = None ∧
  (∀ name, is_Some (commandLibraries !! name) ↔
           name ∈ ["ping"; "echo"; "push"; "pop"; "length"; "quit"]) ∧
  (∀ pq rest,
     serve ascii_ToLower 1
       (mkConn ("*1" +:+ CRLF +:+ "$7" +:+ CRLF +:+ "command" +:+ CRLF +:+ rest) [] pq) =
     ServeReturns (wrongCommandError "command" []) (mkConn rest [] pq)).
Proof.
  split_and!.
  - by vm_compute.
  - intros name. unfold commandLibraries.
    rewrite !lookup_insert_is_Some, lookup_empty, is_Some_alt.
    rewrite !elem_of_cons, elem_of_nil.
    split; [intuition congruence|].
    intros H; repeat (destruct H as [->|H]; [repeat ((by left) || (right; split; [done|]))|]); done.
  - intros pq rest. by vm_compute.
Qed.

Section validation.

Variable ToLower : string → string.

Lemma registered_constructors :
  commandLibraries !! "ping" = Some NewPingCommand ∧
  commandLibraries !! "echo" = Some NewEchoCommand ∧
  commandLibraries !! "push" = Some NewPushCommand ∧
  commandLibraries !! "pop" = Some NewPopCommand ∧
  commandLibraries !! "length" = Some NewLengthCommand ∧
  commandLibraries !! "quit" = Some NewQuitCommand ∧
  commandLibraries !! "command" = None.
Proof. split_and!; by vm_compute. Qed.

(** A request that fails validation is turned down by the constructor
    (or, for a bad priority, by [PushCommand.Execute] before it touches
    the queue), or is no registered command at all. *)
Lemma fails_validation_resolve name args pq :
  fails_validation (ToLower name) args →
  ∃ err, is_ErrQuit err = false ∧
    (resolve ToLower name args = inr err ∨
     ∃ command, resolve ToLower name args = inl command ∧
                Execute command pq = Returns [] (Some err) pq).
Proof.
  destruct registered_constructors as (Hping & Hecho & Hpush & Hpop & Hlen & Hquit & Hcmd).
  unfold resolve. cbv zeta. intros [Har|(Hn & key & value & score & err & -> & Hp)].
  - unfold arity_allowed in Har.
    repeat case_decide; try discriminate;
      match goal with H : ToLower name = _ |- _ => rewrite H end;
      rewrite ?Hping, ?Hecho, ?Hpush, ?Hpop, ?Hlen, ?Hquit, ?Hcmd;
      injection Har as Har;
      unfold NewPingCommand, NewEchoCommand, NewPushCommand, NewPopCommand,
        NewLengthCommand, NewQuitCommand;
      try (rewrite bool_decide_eq_true_2 by
             (first [apply Nat.leb_gt in Har | apply Nat.eqb_neq in Har]; lia));
      eexists; (split; [|left; reflexivity]); reflexivity.
  - rewrite Hn, Hpush. unfold NewPushCommand. simpl.
    destruct (ParseInt_as_error _ _ _ Hp) as [k ->].
    exists (NumError "ParseInt" score k). split; [done|].
    right. eexists. split; [reflexivity|]. simpl. by rewrite Hp.
Qed.

(** C7.  When the request read from the connection fails validation,
    [serve] returns an error, having written nothing and leaving the
    queue as it was; [serveConn] writes the error back and goes on with
    the same queue. *)
Theorem invalid_request_no_effect fuel c name args rest :
  Parse (input c) = (Ok (name, args), rest) →
  fails_validation (ToLower name) args →
  ∃ err,
    serve ToLower (S fuel) c = ServeReturns err (mkConn rest (output c) (queue c)) ∧
    serveConn ToLower (S fuel) c =
      serveConn ToLower fuel (mkConn rest (output c ++ [ReplyError err]) (queue c)).
Proof.
  intros Hparse Hfail.
  destruct (fails_validation_resolve name args (queue c) Hfail)
    as (err & Hq & [Hr|(command & Hr & Hex)]);
    exists err; rewrite serveConn_S, serve_S, (ReadFrom_Parse_Ok _ _ _ _ _ Hparse), Hr.
  - by rewrite Hq.
  - rewrite Hex, app_nil_r. by rewrite Hq.
Qed.

End validation.

Lemma invalid_request_no_effect_witness :
  let pq := NewPriorityQueueWithRouting in
  let bad_push := "*4" +:+ CRLF +:+ "$4" +:+ CRLF +:+ "PUSH" +:+ CRLF +:+
                  "$1" +:+ CRLF +:+ "q" +:+ CRLF +:+ "$1" +:+ CRLF +:+ "v" +:+ CRLF +:+
                  "$2" +:+ CRLF +:+ "1x" +:+ CRLF in
  ∃ err,
    serve ascii_ToLower 1 (mkConn bad_push [] pq) = ServeReturns err (mkConn EmptyString [] pq) ∧
    serveConn ascii_ToLower 1 (mkConn bad_push [] pq) =
      serveConn ascii_ToLower 0 (mkConn EmptyString ([] ++ [ReplyError err]) pq).
Proof.
  intros pq bad_push.
  apply (invalid_request_no_effect ascii_ToLower 0 (mkConn bad_push [] pq)
           "PUSH" ["q"; "v"; "1x"] EmptyString).
  - by vm_compute.
  - right. split; [by vm_compute|].
    exists "q", "v", "1x", (NumError "ParseInt" "1x" ErrSyntax).
    split; [done|by vm_compute].
Defined.

(** * Callers running side by side *)

(** C6.  A [Dequeue] called on an empty route and an [Enqueue] on the
    same route: the [Dequeue] finds the route empty, builds the
    condition variable on a mutex of its own and lets go of
    [queueLock]; the [Enqueue] then runs from start to end and its
    [Broadcast] finds nobody waiting; the [Dequeue] goes to sleep.
    Nobody holds a mutex, the item sits in the queue, no caller can
    take a step: the [Dequeue] waits for good. *)
Theorem Dequeue_misses_the_wakeup :
  let calls := [sched.CallDequeue "q"; sched.CallEnqueue "q" (mkItem "v" 1 0)] in
  ∃ w, sched.run [0; 0; 1; 1; 0; 0] (sched.boot calls) = Some w ∧
       sched.at_pc <$> sched.threads w = [sched.DWaiting; sched.EReturned] ∧
       Length (sched.shared w) "q" = 1%Z ∧
       L <$> notEmpty (sched.shared w) !! "q" = Some (condMutex "q") ∧
       sched.held w = [] ∧
       ∀ tid, sched.step w tid = None.
Proof.
  intros calls. eexists. split; [vm_compute; reflexivity|].
  split; [vm_compute; reflexivity|].
  split; [vm_compute; reflexivity|].
  split; [vm_compute; reflexivity|].
  split; [vm_compute; reflexivity|].
  intros [|[|tid]]; vm_compute; reflexivity.
Qed.

(** In the model the wake-up does arrive when the [Dequeue] is already
    asleep by the time [Enqueue] broadcasts. *)
Lemma Dequeue_woken_when_asleep :
  let calls := [sched.CallDequeue "q"; sched.CallEnqueue "q" (mkItem "v" 1 0)] in
  ∃ w, sched.run [0; 0; 0; 0; 1; 1; 0; 0; 0; 0] (sched.boot calls) = Some w ∧
       sched.at_pc <$> sched.threads w =
         [sched.DReturned (mkItem "v" 1 (-1)); sched.EReturned] ∧
       Length (sched.shared w) "q" = 0%Z.
Proof.
  intros calls. eexists. split; [vm_compute; reflexivity|].
  split; vm_compute; reflexivity.
Qed.

(** * More of the queue *)

Section queue_more.

(** What every [Swap] keeps, [heap.up] and [heap.down] keep. *)
Lemma up_keeps (P : PriorityQueue → Prop) :
  (∀ h i j h', Swap h i j = Some h' → P h → P h') →
  ∀ fuel h j h', heap.up fuel h j = Some h' → P h → P h'.
Proof.
  intros HP fuel. induction fuel as [|fuel IH]; intros h j h' Hup Hh; [discriminate|].
  rewrite up_S in Hup. case_bool_decide; [by injection Hup as <-|].
  destruct (Less h j (parent j)) as [[]|]; simpl in Hup; try discriminate;
    [|by injection Hup as <-].
  destruct (Swap h (parent j) j) as [h1|] eqn:Hs; [|discriminate].
  rewrite bind_Some_l in Hup. eapply IH; eauto.
Qed.

Lemma down_keeps (P : PriorityQueue → Prop) :
  (∀ h i j h', Swap h i j = Some h' → P h → P h') →
  ∀ fuel h i n h', heap.down fuel h i n = Some h' → P h → P h'.
Proof.
  intros HP fuel. induction fuel as [|fuel IH]; intros h i n h' Hd Hh; [discriminate|].
  rewrite down_S in Hd. case_bool_decide; [by injection Hd as <-|].
  destruct (if bool_decide (2 * i + 1 + 1 < n)
            then lt ← Less h (2 * i + 1 + 1) (2 * i + 1);
                 Some (if lt : bool then 2 * i + 1 + 1 else 2 * i + 1)
            else Some (2 * i + 1)) as [j|]; [|discriminate].
  rewrite bind_Some_l in Hd.
  destruct (Less h j i) as [[]|]; simpl in Hd; try discriminate;
    [|by injection Hd as <-].
  destruct (Swap h i j) as [h1|] eqn:Hs; [|discriminate].
  rewrite bind_Some_l in Hd. eapply IH; eauto.
Qed.

Lemma Swap_indexed h i j h' : Swap h i j = Some h' → indexed h → indexed h'.
Proof.
  unfold Swap. intros H Hh.
  destruct (h !! i) as [a|] eqn:Ha; [|discriminate].
  destruct (h !! j) as [b|] eqn:Hb; [|discriminate].
  simpl in H. injection H as <-.
  pose proof (lookup_lt_Some _ _ _ Ha). pose proof (lookup_lt_Some _ _ _ Hb).
  intros k x. destruct (decide (k = j)) as [->|Hkj].
  - rewrite list_lookup_insert_eq by (by rewrite length_insert). by intros [= <-].
  - rewrite list_lookup_insert_ne by done.
    destruct (decide (k = i)) as [->|Hki].
    + rewrite list_lookup_insert_eq by done. by intros [= <-].
    + rewrite list_lookup_insert_ne by done. apply Hh.
Qed.

Lemma heap_Push_indexed h x h' :
  indexed h → heap.Push h x = Some h' → indexed h'.
Proof.
  unfold heap.Push. cbv zeta. intros Hh Hup.
  eapply (up_keeps indexed Swap_indexed); [exact Hup|].
  intros k y. unfold Push.
  destruct (decide (k < length h)) as [Hk|Hk].
  - rewrite lookup_app_l by done. apply Hh.
  - rewrite lookup_app_r by lia.
    destruct (k - length h) as [|m] eqn:E; [|by destruct m].
    simpl. intros [= <-]. simpl. f_equal. lia.
Qed.

Lemma heap_Pop_indexed h x h' :
  indexed h → heap.Pop h = Some (x, h') → indexed h' ∧ index x = (-1)%Z.
Proof.
  unfold heap.Pop. cbv zeta. intros Hh Hpop.
  destruct (Swap h 0 (Len h - 1)) as [h1|] eqn:Hs; [|discriminate].
  rewrite bind_Some_l in Hpop.
  destruct (heap.down _ h1 0 _) as [h2|] eqn:Hd; [|discriminate].
  rewrite bind_Some_l in Hpop.
  assert (indexed h2) as H2
    by (eapply (down_keeps indexed Swap_indexed); eauto using Swap_indexed).
  unfold Pop in Hpop. destruct (length h2) as [|m]; [discriminate|].
  destruct (h2 !! m) as [item|]; [|discriminate].
  simpl in Hpop. injection Hpop as <- <-. split; [|done].
  intros k y Hy. apply H2.
  destruct (decide (k < m)); [by rewrite lookup_take_lt in Hy|].
  by rewrite lookup_take_ge in Hy by lia.
Qed.


Lemma run_wf ops : ∀ pq out pq',
  wf pq → run ops pq = Some (out, pq') → wf pq'.
Proof.
  induction ops as [|[route item|route] ops IH]; intros pq out pq' Hwf Hrun;
    simpl in Hrun.
  - by injection Hrun as <- <-.
  - destruct (Enqueue pq route item) as [pq1|] eqn:He; [|discriminate].
    rewrite bind_Some_l in Hrun. eauto using Enqueue_wf.
  - destruct (Dequeue pq route) as [[x pq1]|] eqn:Hd; [|discriminate].
    rewrite bind_Some_l in Hrun.
    destruct (run ops pq1) as [[out1 pq2]|] eqn:Hr; [|discriminate].
    simpl in Hrun. injection Hrun as <- <-. eauto using Dequeue_wf.
Qed.

Lemma Enqueue_queue_of pq route item pq' r :
  Enqueue pq route item = Some pq' →
  payload <$> queue_of pq' r ≡ₚ
    (if bool_decide (route = r) then [payload item] else []) ++
    (payload <$> queue_of pq r).
Proof.
  intros He.
  destruct (Enqueue_total pq route item) as (pq1 & q' & He1 & Hq' & Hmap).
  rewrite He in He1. injection He1 as <-.
  destruct (heap_Push_total (queue_of pq route) item) as (q1 & Hq1 & _ & Hp).
  rewrite Hq' in Hq1. injection Hq1 as <-.
  unfold queue_of at 1. rewrite Hmap. case_bool_decide as Hr.
  - subst r. by rewrite lookup_insert_eq.
  - by rewrite lookup_insert_ne.
Qed.

Lemma Dequeue_queue_of pq route x pq' r :
  wf pq → Dequeue pq route = Some (x, pq') →
  payload <$> queue_of pq r ≡ₚ
    (if bool_decide (route = r) then [payload x] else []) ++
    (payload <$> queue_of pq' r).
Proof.
  intros Hwf Hd.
  destruct (Dequeue_Some _ _ _ _ Hd) as (q & q' & Hq & Hlen & Hpop & Hmap & _).
  destruct (heap_Pop_ok q (Hwf _ _ Hq) Hlen) as (x1 & q1 & Hpop1 & _ & _ & Hp & _).
  rewrite Hpop in Hpop1. injection Hpop1 as <- <-.
  unfold queue_of. rewrite Hmap. case_bool_decide as Hr.
  - subst r. by rewrite lookup_insert_eq, Hq.
  - by rewrite lookup_insert_ne.
Qed.

Lemma run_conserves ops : ∀ pq out pq' r,
  wf pq → run ops pq = Some (out, pq') →
  payload <$> (queue_of pq r ++ enqueued_on r ops) ≡ₚ
  payload <$> (returned_on r ops out ++ queue_of pq' r).
Proof.
  induction ops as [|[route item|route] ops IH]; intros pq out pq' r Hwf Hrun;
    simpl in Hrun.
  - injection Hrun as <- <-. simpl. by rewrite app_nil_r.
  - destruct (Enqueue pq route item) as [pq1|] eqn:He; [|discriminate].
    rewrite bind_Some_l in Hrun.
    specialize (IH _ _ _ r (Enqueue_wf _ _ _ _ Hwf He) Hrun).
    change (returned_on r (OpEnqueue route item :: ops) out) with (returned_on r ops out).
    rewrite <- IH. rewrite !fmap_app, (Enqueue_queue_of _ _ _ _ r He). simpl.
    case_bool_decide; simpl; [|done].
    by rewrite Permutation_middle.
  - destruct (Dequeue pq route) as [[x pq1]|] eqn:Hd; [|discriminate].
    rewrite bind_Some_l in Hrun.
    destruct (run ops pq1) as [[out1 pq2]|] eqn:Hr; [|discriminate].
    simpl in Hrun. injection Hrun as <- <-.
    specialize (IH _ _ _ r (Dequeue_wf _ _ _ _ Hwf Hd) Hr).
    simpl. rewrite !fmap_app in *. rewrite (Dequeue_queue_of _ _ _ _ r Hwf Hd).
    case_bool_decide; simpl; by rewrite IH.
Qed.

(** In a serialized run from a new queue nothing is lost and nothing
    is served twice: on every route, the items enqueued are the items
    its [Dequeue] calls returned together with the items still
    there. *)
Theorem run_loses_nothing ops out pq route :
  run ops NewPriorityQueueWithRouting = Some (out, pq) →
  payload <$> enqueued_on route ops ≡ₚ
  payload <$> (returned_on route ops out ++ queue_of pq route).
Proof.
  intros Hrun. by rewrite <- (run_conserves ops _ _ _ route wf_New Hrun).
Qed.

Lemma run_loses_nothing_witness :
  let a := mkItem "a" 5 0 in
  let b := mkItem "b" 7 0 in
  let ops := [OpEnqueue "q" a; OpEnqueue "p" a; OpEnqueue "q" b; OpDequeue "q"] in
  ∃ out pq, run ops NewPriorityQueueWithRouting = Some (out, pq) ∧
    payload <$> enqueued_on "q" ops ≡ₚ
    payload <$> (returned_on "q" ops out ++ queue_of pq "q").
Proof.
  intros a b ops.
  destruct (run ops NewPriorityQueueWithRouting) as [[out pq]|] eqn:Hrun;
    [|vm_compute in Hrun; discriminate].
  exists out, pq. split; [done|]. exact (run_loses_nothing ops out pq "q" Hrun).
Defined.

(** Whatever serialized run led to it, a [Dequeue] that returns hands
    out an item of the highest priority its route held, and takes just
    that item out. *)
Theorem Dequeue_highest_in_any_run ops out pq route x pq' :
  run ops NewPriorityQueueWithRouting = Some (out, pq) →
  Dequeue pq route = Some (x, pq') →
  (∀ y, y ∈ queue_of pq route → (priority y ≤ priority x)%Z) ∧
  payload <$> queue_of pq route ≡ₚ payload x :: (payload <$> queue_of pq' route).
Proof.
  intros Hrun Hd.
  pose proof (run_wf _ _ _ _ wf_New Hrun) as Hwf.
  split.
  - destruct (Dequeue_Some _ _ _ _ Hd) as (q & q' & Hq & Hlen & Hpop & _).
    destruct (heap_Pop_ok q (Hwf _ _ Hq) Hlen) as (x1 & q1 & Hpop1 & _ & _ & _ & Hmax).
    rewrite Hpop in Hpop1. injection Hpop1 as <- <-.
    unfold queue_of. by rewrite Hq.
  - rewrite (Dequeue_queue_of _ _ _ _ route Hwf Hd).
    by rewrite bool_decide_eq_true_2.
Qed.

Lemma Dequeue_highest_in_any_run_witness :
  let a := mkItem "a" 5 0 in
  let b := mkItem "b" 7 0 in
  let c := mkItem "c" 6 0 in
  let ops := [OpEnqueue "q" a; OpEnqueue "q" b; OpDequeue "q"; OpEnqueue "q" c] in
  ∃ out pq x pq',
    run ops NewPriorityQueueWithRouting = Some (out, pq) ∧
    Dequeue pq "q" = Some (x, pq') ∧ value x = "c" ∧
    (∀ y, y ∈ queue_of pq "q" → (priority y ≤ priority x)%Z).
Proof.
  intros a b c ops.
  destruct (run ops NewPriorityQueueWithRouting) as [[out pq]|] eqn:Hrun;
    [|vm_compute in Hrun; discriminate].
  destruct (Dequeue pq "q") as [[x pq']|] eqn:Hd.
  2:{ vm_compute in Hrun. injection Hrun as <- <-. vm_compute in Hd. discriminate. }
  exists out, pq, x, pq'. split_and!; [done|done| |].
  - vm_compute in Hrun. injection Hrun as <- <-. vm_compute in Hd.
    by injection Hd as <- <-.
  - exact (proj1 (Dequeue_highest_in_any_run ops out pq "q" x pq' Hrun Hd)).
Defined.

Lemma Enqueue_keeps_indexed pq r item pq' :
  (∀ route q, queueMap pq !! route = Some q → indexed q) →
  Enqueue pq r item = Some pq' →
  ∀ route q, queueMap pq' !! route = Some q → indexed q.
Proof.
  intros H0 He.
  destruct (Enqueue_total pq r item) as (pq2 & q' & He1 & Hq' & Hmap).
  rewrite He in He1. injection He1 as <-.
  intros route q. rewrite Hmap. destruct (decide (r = route)) as [->|Hne].
  - rewrite lookup_insert_eq. intros [= <-].
    eapply heap_Push_indexed; [|exact Hq'].
    unfold queue_of. destruct (queueMap pq !! route) eqn:E; simpl; [eauto|].
    by intros k x.
  - rewrite lookup_insert_ne by done. apply H0.
Qed.

Lemma Dequeue_keeps_indexed pq r x pq' :
  (∀ route q, queueMap pq !! route = Some q → indexed q) →
  Dequeue pq r = Some (x, pq') →
  (∀ route q, queueMap pq' !! route = Some q → indexed q) ∧ index x = (-1)%Z.
Proof.
  intros H0 Hd.
  destruct (Dequeue_Some _ _ _ _ Hd) as (q & q' & Hq & _ & Hpop & Hmap & _).
  destruct (heap_Pop_indexed q x q' (H0 _ _ Hq) Hpop) as [Hq' Hx].
  split; [|done].
  intros route q0. rewrite Hmap. destruct (decide (r = route)) as [->|Hne].
  - rewrite lookup_insert_eq. by intros [= <-].
  - rewrite lookup_insert_ne by done. apply H0.
Qed.

Lemma run_indexed ops : ∀ pq0 out pq,
  (∀ route q, queueMap pq0 !! route = Some q → indexed q) →
  run ops pq0 = Some (out, pq) →
  (∀ route q, queueMap pq !! route = Some q → indexed q) ∧
  Forall (λ x, index x = (-1)%Z) out.
Proof.
  induction ops as [|[r item|r] ops IH]; intros pq0 out pq H0 Hrun; simpl in Hrun.
  - injection Hrun as <- <-. by split.
  - destruct (Enqueue pq0 r item) as [pq1|] eqn:He; [|discriminate].
    rewrite bind_Some_l in Hrun. eauto using Enqueue_keeps_indexed.
  - destruct (Dequeue pq0 r) as [[x pq1]|] eqn:Hd; [|discriminate].
    rewrite bind_Some_l in Hrun.
    destruct (run ops pq1) as [[out1 pq2]|] eqn:Hr; [|discriminate].
    simpl in Hrun. injection Hrun as <- <-.
    destruct (Dequeue_keeps_indexed _ _ _ _ H0 Hd) as [H1 Hx].
    destruct (IH _ _ _ H1 Hr) as [H2 Hout]. split; [done|by constructor].
Qed.

(** The bookkeeping of the slices.  In every state a serialized run
    reaches from a new queue, every route's slice is heap ordered (no
    item above its parent in priority) and every item in it carries
    its own position in [index]; every item a [Dequeue] handed out
    carries [-1]. *)
Theorem run_keeps_slices_in_order ops out pq :
  run ops NewPriorityQueueWithRouting = Some (out, pq) →
  (∀ route q, queueMap pq !! route = Some q → heap_ok q ∧ indexed q) ∧
  Forall (λ x, index x = (-1)%Z) out.
Proof.
  intros Hrun.
  destruct (run_indexed ops NewPriorityQueueWithRouting out pq) as [Hi Hout];
    [|done|].
  { intros route q. unfold NewPriorityQueueWithRouting. simpl.
    by rewrite lookup_empty. }
  split; [|done]. intros route q Hq. split; [|by eapply Hi].
  by eapply (run_wf _ _ _ _ wf_New Hrun).
Qed.

Lemma run_keeps_slices_in_order_witness :
  let a := mkItem "a" 5 0 in
  let b := mkItem "b" 7 0 in
  let ops := [OpEnqueue "q" a; OpEnqueue "q" b; OpEnqueue "q" a; OpDequeue "q"] in
  ∃ out pq, run ops NewPriorityQueueWithRouting = Some (out, pq) ∧
    (∀ route q, queueMap pq !! route = Some q → heap_ok q ∧ indexed q) ∧
    Forall (λ x, index x = (-1)%Z) out.
Proof.
  intros a b ops.
  destruct (run ops NewPriorityQueueWithRouting) as [[out pq]|] eqn:Hrun;
    [|vm_compute in Hrun; discriminate].
  exists out, pq. split; [done|]. exact (run_keeps_slices_in_order ops out pq Hrun).
Defined.


(** When [Dequeue] returns and when it waits.  In a state reached by a
    serialized run, [Dequeue] returns at once exactly when its route
    holds an item; on an empty or unknown route it goes to wait,
    having changed no slice, and the route has a condition variable
    from then on: the one it had, or a new one on a mutex of its
    own. *)
Theorem Dequeue_returns_iff_nonempty ops out pq route :
  run ops NewPriorityQueueWithRouting = Some (out, pq) →
  (is_Some (Dequeue pq route) ↔ (0 < Length pq route)%Z) ∧
  (Length pq route = 0%Z →
   ∃ pq', Dequeue_pass pq route = Some (MustWait pq') ∧
          queueMap pq' = queueMap pq ∧
          notEmpty pq' !! route =
            Some (default (mkCond (condMutex route)) (notEmpty pq !! route))).
Proof.
  intros Hrun. pose proof (run_wf _ _ _ _ wf_New Hrun) as Hwf.
  split; [split|].
  - intros [[x pq'] Hd].
    destruct (Dequeue_Some _ _ _ _ Hd) as (q & q' & Hq & Hlen & _).
    unfold Length, Len. rewrite Hq. lia.
  - unfold Length, Len. intros Hlen.
    destruct (queueMap pq !! route) as [q|] eqn:Hq; [|lia].
    destruct (Dequeue_nonempty pq route q (Hwf _ _ Hq) Hq ltac:(lia)) as (x & q' & Hd & _).
    rewrite Hd. eauto.
  - unfold Length, Len, Dequeue_pass. intros Hlen.
    exists (Dequeue_wait pq route).
    assert (notEmpty (Dequeue_wait pq route) !! route =
            Some (default (mkCond (condMutex route)) (notEmpty pq !! route))) as Hc.
    { unfold Dequeue_wait. simpl. destruct (notEmpty pq !! route) eqn:E; [by rewrite E|].
      by rewrite lookup_insert_eq. }
    destruct (queueMap pq !! route) as [q|] eqn:Hq; [|done].
    rewrite bool_decide_eq_false_2; [done|unfold Len; lia].
Qed.

Lemma Dequeue_returns_iff_nonempty_witness :
  let ops := [OpEnqueue "q" (mkItem "a" 5 0); OpDequeue "q"] in
  ∃ out pq, run ops NewPriorityQueueWithRouting = Some (out, pq) ∧
    (is_Some (Dequeue pq "q") ↔ (0 < Length pq "q")%Z).
Proof.
  intros ops.
  destruct (run ops NewPriorityQueueWithRouting) as [[out pq]|] eqn:Hrun;
    [|vm_compute in Hrun; discriminate].
  exists out, pq. split; [done|].
  exact (proj1 (Dequeue_returns_iff_nonempty ops out pq "q" Hrun)).
Defined.

(** The two tables only grow.  No call removes a route, and a route's
    condition variable, once made, is never replaced: [Enqueue] and
    [Dequeue] (whether it pops or goes to wait) keep every route that
    is there and every condition variable as it is. *)
Theorem tables_only_grow pq route item r :
  (∀ pq', Enqueue pq route item = Some pq' →
     (is_Some (queueMap pq !! r) → is_Some (queueMap pq' !! r)) ∧
     (∀ c, notEmpty pq !! r = Some c → notEmpty pq' !! r = Some c)) ∧
  (∀ a, Dequeue_pass pq route = Some a →
     (is_Some (queueMap pq !! r) → is_Some (queueMap (attempt_pq a) !! r)) ∧
     (∀ c, notEmpty pq !! r = Some c → notEmpty (attempt_pq a) !! r = Some c)).
Proof.
  split.
  - intros pq' He. rewrite Enqueue_unfold in He.
    destruct (heap.Push (queue_of pq route) item) as [q'|]; [|discriminate].
    rewrite bind_Some_l in He. injection He as <-. simpl. split.
    + rewrite lookup_insert_is_Some. destruct (decide (route = r)); eauto.
    + intros c Hc. destruct (notEmpty pq !! route) eqn:E; [done|].
      rewrite lookup_insert_ne; [done|congruence].
  - intros a Ha. unfold Dequeue_pass in Ha.
    assert (∀ c, notEmpty pq !! r = Some c →
                 notEmpty (Dequeue_wait pq route) !! r = Some c) as Hw.
    { intros c Hc. unfold Dequeue_wait. simpl.
      destruct (notEmpty pq !! route) eqn:E; [done|].
      rewrite lookup_insert_ne; [done|congruence]. }
    destruct (queueMap pq !! route) as [q|] eqn:Hq; [|by injection Ha as <-].
    case_bool_decide; [|by injection Ha as <-].
    destruct (heap.Pop q) as [[x q']|]; [|discriminate].
    simpl in Ha. injection Ha as <-. simpl. split; [|done].
    rewrite lookup_insert_is_Some. destruct (decide (route = r)); eauto.
Qed.

End queue_more.

(** * More of the codec *)

Section round_trip.

Lemma append_nil_l (s : string) : EmptyString +:+ s = s.
Proof. reflexivity. Qed.

Lemma length_append (a b : string) :
  String.length (a +:+ b) = String.length a + String.length b.
Proof. induction a as [|x a IH]; [done|]. rewrite append_cons. simpl. by rewrite IH. Qed.

Lemma stake_append (a b : string) : stake (String.length a) (a +:+ b) = a.
Proof. induction a as [|x a IH]; [by destruct b|]. rewrite append_cons. simpl. by rewrite IH. Qed.

Lemma sdrop_append (a b : string) : sdrop (String.length a) (a +:+ b) = b.
Proof. induction a as [|x a IH]; [done|]. rewrite append_cons. simpl. by rewrite IH. Qed.

(** A string without line feed. *)
Lemma digit_Some c d : strconv.digit c = Some d → (0 ≤ d ≤ 9)%Z ∧ c ≠ LF ∧ c ≠ "+"%char ∧ c ≠ "-"%char.
Proof.
  unfold strconv.digit. intros H.
  destruct (48 <=? nat_of_ascii c) eqn:H1; [|discriminate].
  destruct (nat_of_ascii c <=? 57) eqn:H2; [|discriminate].
  simpl in H. injection H as <-.
  apply Nat.leb_le in H1, H2.
  split; [lia|].
  split_and!; intros ->; vm_compute in H1; lia.
Qed.

Lemma digit_pretty_N_char x :
  (x < 10)%N → strconv.digit (pretty_N_char x) = Some (Z.of_N x).
Proof.
  intros H.
  assert (x = 0 ∨ x = 1 ∨ x = 2 ∨ x = 3 ∨ x = 4 ∨ x = 5 ∨ x = 6
          ∨ x = 7 ∨ x = 8 ∨ x = 9)%N as Hx by lia.
  repeat (destruct Hx as [->|Hx]; [reflexivity|]). by subst.
Qed.

Lemma ParseUint_loop_pretty x : ∀ s,
  (Z.of_N x ≤ strconv.maxUint64)%Z →
  strconv.ParseUint_loop (pretty_N_go x s) 0 = strconv.ParseUint_loop s (Z.of_N x).
Proof.
  induction (N.lt_wf_0 x) as [x _ IH]; intros s Hx.
  assert (x = 0 ∨ 0 < x)%N as [->|Hpos] by lia; [by rewrite pretty_N_go_0|].
  rewrite pretty_N_go_step by done.
  assert (x `div` 10 < x)%N as Hlt by (by apply N.div_lt).
  rewrite IH; [|done|lia].
  simpl. rewrite digit_pretty_N_char by (by apply N.mod_lt).
  pose proof (N.div_mod x 10 ltac:(done)) as Hdm.
  pose proof (N.mod_lt x 10 ltac:(done)) as Hm.
  assert (Z.of_N (x `div` 10) * 10 + Z.of_N (x `mod` 10) = Z.of_N x)%Z as -> by lia.
  unfold strconv.maxUint64 in *.
  change (2 ^ 64 - 1)%Z with 18446744073709551615%Z in *.
  change (18446744073709551615 `div` 10 + 1)%Z with 1844674407370955162%Z.
  assert (Z.of_N (x `div` 10) * 10 ≤ Z.of_N x)%Z as Hq.
  { rewrite <- (N2Z.inj_mul _ 10). apply N2Z.inj_le.
    rewrite N.mul_comm. apply N.Div0.mul_div_le. }
  generalize dependent (Z.of_N (x `div` 10)). intros q Hq.
  destruct (Z.geb_spec q 1844674407370955162) as [Hge|_]; [exfalso; lia|].
  destruct (Z.gtb_spec (Z.of_N x) 18446744073709551615) as [Hgt|_]; [exfalso; lia|done].
Qed.

Lemma length_pretty_N_go k : ∀ x s,
  (x < 10 ^ N.of_nat k)%N →
  String.length (pretty_N_go x s) ≤ String.length s + k.
Proof.
  induction k as [|k IH]; intros x s Hx.
  - assert (x = 0)%N as -> by (simpl in Hx; lia). rewrite pretty_N_go_0. lia.
  - assert (x = 0 ∨ 0 < x)%N as [->|Hpos] by lia; [rewrite pretty_N_go_0; lia|].
    rewrite pretty_N_go_step by done.
    etrans; [apply IH|simpl; lia].
    rewrite Nat2N.inj_succ, N.pow_succ_r' in Hx.
    apply N.Div0.div_lt_upper_bound. lia.
Qed.


Lemma ParseUint_loop_first c s n v :
  strconv.ParseUint_loop (String c s) n = inl v →
  c ≠ LF ∧ c ≠ "+"%char ∧ c ≠ "-"%char.
Proof.
  simpl. destruct (strconv.digit c) as [d|] eqn:Hd; [|discriminate].
  intros _. by destruct (digit_Some _ _ Hd) as (_ & ? & ? & ?).
Qed.

Lemma ParseUint_loop_no_LF s : ∀ n v,
  strconv.ParseUint_loop s n = inl v → index_LF (String.length s) s = None.
Proof.
  induction s as [|c s IH]; intros n v H; [done|].
  destruct (ParseUint_loop_first _ _ _ _ H) as (Hlf & _).
  simpl in *. destruct (strconv.digit c); [|discriminate].
  repeat case_match; try discriminate.
  - by destruct Hlf; apply Ascii.eqb_eq.
  - by rewrite (IH _ _ H).
Qed.

Lemma Itoa_unfold n :
  strconv.Itoa n =
  if decide (n = 0) then "0" else pretty_N_go (N.of_nat n) EmptyString.
Proof.
  unfold strconv.Itoa. destruct n as [|n]; [done|].
  rewrite decide_False by done. reflexivity.
Qed.

Lemma Itoa_parses n :
  (Z.of_nat n ≤ strconv.maxUint64)%Z →
  strconv.ParseUint_loop (strconv.Itoa n) 0 = inl (Z.of_nat n).
Proof.
  intros Hn. rewrite Itoa_unfold. case_decide as H0; [by subst|].
  rewrite ParseUint_loop_pretty by lia. simpl. f_equal. lia.
Qed.

Lemma Itoa_first n :
  (Z.of_nat n ≤ strconv.maxUint64)%Z →
  ∃ c s, strconv.Itoa n = String c s ∧ c ≠ LF ∧ c ≠ "+"%char ∧ c ≠ "-"%char.
Proof.
  intros Hn. pose proof (Itoa_parses n Hn) as Hp.
  destruct (strconv.Itoa n) as [|c s] eqn:E.
  - destruct n; [by rewrite Itoa_unfold in E|]. simpl in Hp. injection Hp. lia.
  - exists c, s. split; [done|]. eapply ParseUint_loop_first, Hp.
Qed.

(** [parseInt] reads back what [strconv.Itoa] prints. *)
Lemma parseInt_Itoa n :
  (Z.of_nat n < 2 ^ 63)%Z → parseInt (strconv.Itoa n) = inl (Z.of_nat n).
Proof.
  intros Hn.
  assert (Z.of_nat n ≤ strconv.maxUint64)%Z as Hmax
    by (unfold strconv.maxUint64; change (2 ^ 64 - 1)%Z with 18446744073709551615%Z;
        change (2 ^ 63)%Z with 9223372036854775808%Z in Hn; lia).
  pose proof (Itoa_parses n Hmax) as Hp.
  destruct (Itoa_first n Hmax) as (c & s & E & _ & Hplus & Hminus).
  rewrite E in *. unfold parseInt, strconv.Atoi, strconv.ParseInt_as.
  apply Ascii.eqb_neq in Hplus, Hminus. rewrite Hplus, Hminus. cbv zeta.
  change (false || false) with false. cbv iota.
  unfold strconv.ParseUint. rewrite Hp.
  change (negb false && (Z.of_nat n >=? 2 ^ 63)%Z) with (Z.of_nat n >=? 2 ^ 63)%Z.
  destruct (Z.geb_spec (Z.of_nat n) (2 ^ 63)) as [?|_]; [lia|done].
Qed.

Lemma length_Itoa n :
  (Z.of_nat n < 2 ^ 63)%Z → String.length (strconv.Itoa n) ≤ 19.
Proof.
  intros Hn. rewrite Itoa_unfold. case_decide; [simpl; lia|].
  etrans; [apply (length_pretty_N_go 19)|simpl; lia].
  change (2 ^ 63)%Z with 9223372036854775808%Z in Hn.
  change (10 ^ N.of_nat 19)%N with 10000000000000000000%N. lia.
Qed.

Lemma index_LF_append a : ∀ b k,
  index_LF (String.length a) a = None →
  index_LF (String.length a + S k) (a +:+ b) =
    (λ i, String.length a + i) <$> index_LF (S k) b.
Proof.
  induction a as [|c a IH]; intros b k Ha.
  - rewrite append_nil_l. simpl String.length. rewrite Nat.add_0_l.
    by destruct (index_LF (S k) b).
  - rewrite append_cons. specialize (IH b k).
    set (r := index_LF (S k) b) in *. simpl in *.
    destruct (Ascii.eqb c LF); [discriminate|].
    destruct (index_LF (String.length a) a) eqn:E; [discriminate|].
    rewrite IH by done. by destruct r.
Qed.

Lemma slast_append_char a c : slast (a +:+ String c EmptyString) = Some c.
Proof.
  induction a as [|x a IH]; [done|]. rewrite append_cons.
  simpl. rewrite IH. by destruct (a +:+ String c EmptyString) eqn:E; [destruct a|].
Qed.

(** [ReadLine] on a line closed by CR LF: the line comes back without
    them, and the reader stands behind them. *)
Lemma ReadLine_CRLF line rest :
  index_LF (String.length line) line = None →
  String.length line + 2 ≤ defaultBufSize →
  ReadLine (line +:+ CRLF +:+ rest) = (Ok line, rest).
Proof.
  intros Hlf Hlen. unfold ReadLine.
  assert (index_LF defaultBufSize (line +:+ CRLF +:+ rest) =
          Some (String.length line + 1)) as Hi.
  { replace defaultBufSize with
      (String.length line + S (defaultBufSize - String.length line - 1)) by lia.
    rewrite index_LF_append by done.
    destruct (defaultBufSize - String.length line - 1) as [|k] eqn:E; [lia|].
    reflexivity. }
  rewrite Hi.
  assert (line +:+ CRLF +:+ rest =
          (line +:+ String CR EmptyString) +:+ String LF rest) as E1
    by (by rewrite append_assoc).
  assert (String.length (line +:+ String CR EmptyString) = String.length line + 1)
    as El by (rewrite length_append; simpl; lia).
  destruct (line +:+ CRLF +:+ rest) as [|c0 s0] eqn:E0.
  { apply (f_equal String.length) in E0. rewrite length_append in E0.
    simpl in E0. lia. }
  assert (stake (String.length line + 1) (String c0 s0) = line +:+ String CR EmptyString)
    as -> by (rewrite E1, <- El; apply stake_append).
  assert (stake (String.length line + 1 - 1) (String c0 s0) = line) as ->
    by (rewrite <- E0, Nat.add_sub; apply stake_append).
  assert (sdrop (S (String.length line + 1)) (String c0 s0) = rest) as ->.
  { rewrite <- E0, <- append_assoc.
    replace (S (String.length line + 1))
      with (String.length (line +:+ CRLF)) by (rewrite length_append; simpl; lia).
    apply sdrop_append. }
  by rewrite slast_append_char, bool_decide_eq_true_2.
Qed.


Lemma header_line (c : ascii) n rest :
  c ≠ LF → (Z.of_nat n < 2 ^ 63)%Z →
  ReadLine ((String c EmptyString +:+ strconv.Itoa n +:+ CRLF) +:+ rest) =
    (Ok (String c (strconv.Itoa n)), rest).
Proof.
  intros Hc Hn.
  assert (Z.of_nat n ≤ strconv.maxUint64)%Z as Hmax
    by (unfold strconv.maxUint64; change (2 ^ 64 - 1)%Z with 18446744073709551615%Z;
        change (2 ^ 63)%Z with 9223372036854775808%Z in Hn; lia).
  rewrite !append_cons, append_nil_l, append_assoc.
  change (String c (strconv.Itoa n +:+ CRLF +:+ rest))
    with (String c (strconv.Itoa n) +:+ CRLF +:+ rest).
  apply ReadLine_CRLF.
  - simpl. apply Ascii.eqb_neq in Hc. rewrite Hc.
    by rewrite (ParseUint_loop_no_LF _ _ _ (Itoa_parses n Hmax)).
  - pose proof (length_Itoa n Hn). unfold defaultBufSize. simpl. lia.
Qed.

Lemma ReadFull_append s rest : ReadFull (String.length s) (s +:+ rest) = (Ok s, rest).
Proof.
  unfold ReadFull. rewrite bool_decide_eq_true_2 by (rewrite length_append; lia).
  by rewrite stake_append, sdrop_append.
Qed.

Lemma Discard_CRLF rest : Discard 2 (CRLF +:+ rest) = (Ok (), rest).
Proof. reflexivity. Qed.

Lemma make_of_nat n : make (Z.of_nat n) = ret n.
Proof.
  unfold make. destruct (Z.ltb_spec (Z.of_nat n) 0); [lia|]. by rewrite Nat2Z.id.
Qed.

Lemma bind_Ok {A B} (m : reader A) (k : A → reader B) s a s' :
  m s = (Ok a, s') → bind m k s = k a s'.
Proof. intros H. unfold bind. by rewrite H. Qed.

Lemma bind_ret {A B} (a : A) (k : A → reader B) s : bind (ret a) k s = k a s.
Proof. reflexivity. Qed.

Lemma readString_frame s rest :
  (Z.of_nat (String.length s) < 2 ^ 63)%Z →
  readString (WriteString s +:+ rest) = (Ok s, rest).
Proof.
  intros Hn. unfold WriteString.
  assert (("$" +:+ strconv.Itoa (String.length s) +:+ CRLF +:+ s +:+ CRLF) +:+ rest =
          ("$" +:+ strconv.Itoa (String.length s) +:+ CRLF) +:+ s +:+ CRLF +:+ rest) as ->
    by (by rewrite !append_assoc).
  unfold readString, readLine.
  rewrite (bind_Ok _ _ _ _ _ (header_line "$" _ _ ltac:(done) Hn)).
  change (negb (Ascii.eqb "$" StringReply)) with false. cbv iota.
  rewrite parseInt_Itoa by done.
  change (lift (inl ?v)) with (ret v). rewrite bind_ret, make_of_nat, bind_ret.
  rewrite (bind_Ok _ _ _ _ _ (ReadFull_append s _)).
  by rewrite (bind_Ok _ _ _ _ _ (Discard_CRLF rest)).
Qed.

(** What [WriteString] writes, [readString] reads back byte for byte,
    whatever the bytes are, and it stops right behind the frame. *)
Theorem readString_WriteString s rest :
  (Z.of_nat (String.length s) < 2 ^ 63)%Z →
  readString (WriteString s +:+ rest) = (Ok s, rest).
Proof. apply readString_frame. Qed.

Lemma readCommandArgs_loop_frames args : ∀ rest,
  Forall (λ a, Z.of_nat (String.length a) < 2 ^ 63)%Z args →
  readCommandArgs_loop (length args) (bulk_frames args +:+ rest) = (Ok args, rest).
Proof.
  induction args as [|a args IH]; intros rest Hall; [done|].
  apply Forall_cons in Hall as [Ha Hall].
  change (readCommandArgs_loop (length (a :: args))) with
    (arg <- readString;; args' <- readCommandArgs_loop (length args);; ret (arg :: args')).
  change (bulk_frames (a :: args)) with (WriteString a +:+ bulk_frames args).
  rewrite append_assoc.
  rewrite (bind_Ok _ _ _ _ _ (readString_frame a _ Ha)).
  by rewrite (bind_Ok _ _ _ _ _ (IH rest Hall)).
Qed.

(** A request frame, a count behind [*] and one bulk string per word,
    is decoded by [Parse] into its first word and the others, byte for
    byte, and [Parse] stops right behind the frame. *)
Theorem Parse_array_frame name args rest :
  (Z.of_nat (S (length args)) < 2 ^ 63)%Z →
  Forall (λ a, Z.of_nat (String.length a) < 2 ^ 63)%Z (name :: args) →
  Parse (array_frame (name :: args) +:+ rest) = (Ok (name, args), rest).
Proof.
  intros Hn Hall. apply Forall_cons in Hall as [Hname Hall].
  unfold array_frame.
  assert (("*" +:+ strconv.Itoa (length (name :: args)) +:+ CRLF +:+
           bulk_frames (name :: args)) +:+ rest =
          ("*" +:+ strconv.Itoa (length (name :: args)) +:+ CRLF) +:+
           WriteString name +:+ bulk_frames args +:+ rest) as ->.
  { change (bulk_frames (name :: args)) with (WriteString name +:+ bulk_frames args).
    by rewrite !append_assoc. }
  unfold Parse, readArrayLength, readLine, readCommandName, readCommandArgs.
  assert (∀ r, (line <- ReadLine;;
           match line with
           | EmptyString => fail ErrInvalidSyntax
           | String c rest0 =>
               if negb (Ascii.eqb c ArrayReply) then fail ErrInvalidSyntax
               else lift (parseInt rest0)
           end) (("*" +:+ strconv.Itoa (length (name :: args)) +:+ CRLF) +:+ r) =
          (Ok (Z.of_nat (length (name :: args))), r)) as Hhead.
  { intros r. rewrite (bind_Ok _ _ _ _ _ (header_line "*" _ _ ltac:(done) Hn)).
    change (negb (Ascii.eqb "*" ArrayReply)) with false. cbv iota.
    by rewrite parseInt_Itoa. }
  rewrite (bind_Ok _ _ _ _ _ (Hhead _)).
  destruct (Z.eqb_spec (Z.of_nat (length (name :: args))) 0) as [H0|_];
    [simpl in H0; lia|].
  rewrite (bind_Ok _ _ _ _ _ (readString_frame name _ Hname)).
  replace (Z.of_nat (length (name :: args)) - 1)%Z with (Z.of_nat (length args))
    by (simpl length; lia).
  rewrite make_of_nat.
  assert ((n <- ret (length args);; readCommandArgs_loop n) (bulk_frames args +:+ rest)
          = (Ok args, rest)) as Hargs
    by (rewrite bind_ret; by apply readCommandArgs_loop_frames).
  by rewrite (bind_Ok _ _ _ _ _ Hargs).
Qed.

End round_trip.

Lemma readString_WriteString_witness :
  readString (WriteString ("a" +:+ CRLF +:+ "b") +:+ "tail") =
    (Ok ("a" +:+ CRLF +:+ "b"), "tail").
Proof. apply readString_WriteString. by vm_compute. Defined.

Lemma Parse_array_frame_witness :
  Parse (array_frame ["push"; "q"; "v"; "7"] +:+ "tail") =
    (Ok ("push", ["q"; "v"; "7"]), "tail").
Proof.
  apply Parse_array_frame; [by vm_compute|].
  repeat constructor; by vm_compute.
Defined.

Section parse_errors.

(** The two bytes behind the payload of a bulk string are skipped, not
    looked at: whatever they are, [readString] hands out the payload
    and stands behind them. *)
Theorem readString_skips_the_trailer s x y rest :
  (Z.of_nat (String.length s) < 2 ^ 63)%Z →
  readString (("$" +:+ strconv.Itoa (String.length s) +:+ CRLF) +:+
              s +:+ String x (String y rest)) = (Ok s, rest).
Proof.
  intros Hn. unfold readString, readLine.
  rewrite (bind_Ok _ _ _ _ _ (header_line "$" _ _ ltac:(done) Hn)).
  change (negb (Ascii.eqb "$" StringReply)) with false. cbv iota.
  rewrite parseInt_Itoa by done.
  change (lift (inl ?v)) with (ret v). rewrite bind_ret, make_of_nat, bind_ret.
  rewrite (bind_Ok _ _ _ _ _ (ReadFull_append s _)).
  reflexivity.
Qed.


(** A first line that does not open with [*] is refused with
    [ErrInvalidSyntax], the line being consumed; so is an empty line;
    an empty stream is [io.EOF]. *)
Theorem wrong_header_is_refused c line rest :
  c ≠ ArrayReply →
  index_LF (String.length (String c line)) (String c line) = None →
  String.length (String c line) + 2 ≤ defaultBufSize →
  Parse (String c line +:+ CRLF +:+ rest) = (Err ErrInvalidSyntax, rest) ∧
  Parse (CRLF +:+ rest) = (Err ErrInvalidSyntax, rest) ∧
  Parse EmptyString = (Err EOF, EmptyString).
Proof.
  intros Hc Hlf Hlen. split_and!; [|done|done].
  unfold Parse, readArrayLength, readLine, bind.
  rewrite (ReadLine_CRLF _ rest Hlf Hlen).
  apply Ascii.eqb_neq in Hc. by rewrite Hc.
Qed.

End parse_errors.

Lemma readString_skips_the_trailer_witness :
  readString (("$" +:+ strconv.Itoa (String.length "ab") +:+ CRLF) +:+
              "ab" +:+ String "x" (String "y" "tail")) = (Ok "ab", "tail").
Proof. apply readString_skips_the_trailer. by vm_compute. Defined.


Lemma wrong_header_is_refused_witness :
  Parse (String "P" "ING" +:+ CRLF +:+ "tail") = (Err ErrInvalidSyntax, "tail") ∧
  Parse (CRLF +:+ "tail") = (Err ErrInvalidSyntax, "tail") ∧
  Parse EmptyString = (Err EOF, EmptyString).
Proof.
  apply (wrong_header_is_refused "P" "ING" "tail").
  - discriminate.
  - by vm_compute.
  - unfold defaultBufSize. simpl. lia.
Defined.

(** * More of the commands and the session *)

Section session_more.

Variable ToLower : string → string.



Lemma resolve_registered name args ctor :
  commandLibraries !! ToLower name = Some ctor →
  resolve ToLower name args = ctor args.
Proof. intros H. unfold resolve. cbv zeta. by rewrite H. Qed.



(** [length] answers with the number of items its route holds, 0 for a
    route that does not exist, and creates nothing: the queue is as it
    was. *)
Theorem length_is_answered fuel c name key rest :
  Parse (input c) = (Ok (name, [key]), rest) →
  ToLower name = "length" →
  serve ToLower (S fuel) c =
    serve ToLower fuel
      (mkConn rest (output c ++ [ReplyInt64 (Length (queue c) key)]) (queue c)).
Proof.
  intros Hparse Hn. rewrite serve_S, (ReadFrom_Parse_Ok _ _ _ _ _ Hparse).
  by rewrite (resolve_registered _ _ NewLengthCommand) by (by rewrite Hn).
Qed.

(** [push] with a priority that parses: the item, with that value and
    that priority, joins its route, the answer is the status OK, no
    other route changes, and [serve] goes on. *)
Theorem push_enqueues fuel c name key value score p rest :
  Parse (input c) = (Ok (name, [key; value; score]), rest) →
  ToLower name = "push" →
  strconv.ParseInt score = inl p →
  ∃ pq',
    serve ToLower (S fuel) c =
      serve ToLower fuel (mkConn rest (output c ++ [ReplyStatus OK]) pq') ∧
    payload <$> queue_of pq' key ≡ₚ (value, p) :: (payload <$> queue_of (queue c) key) ∧
    ∀ r, r ≠ key → queueMap pq' !! r = queueMap (queue c) !! r.
Proof.
  intros Hparse Hn Hp.
  destruct (Enqueue_total (queue c) key (mkItem value p 0)) as (pq' & q' & He & _ & Hmap).
  exists pq'. split_and!.
  - rewrite serve_S, (ReadFrom_Parse_Ok _ _ _ _ _ Hparse).
    rewrite (resolve_registered _ _ NewPushCommand) by (by rewrite Hn).
    simpl. by rewrite Hp, He.
  - rewrite (Enqueue_queue_of _ _ _ _ key He).
    by rewrite bool_decide_eq_true_2.
  - intros r Hr. rewrite Hmap. by rewrite lookup_insert_ne.
Qed.

(** [pop] on a route that holds an item answers with the value of an
    item of the highest priority there and takes it out; [serve] goes
    on. *)
Theorem pop_serves_the_highest fuel c name key rest ops out :
  run ops NewPriorityQueueWithRouting = Some (out, queue c) →
  Parse (input c) = (Ok (name, [key]), rest) →
  ToLower name = "pop" →
  (0 < Length (queue c) key)%Z →
  ∃ x pq',
    serve ToLower (S fuel) c =
      serve ToLower fuel (mkConn rest (output c ++ [ReplyString (value x)]) pq') ∧
    (∀ y, y ∈ queue_of (queue c) key → (priority y ≤ priority x)%Z) ∧
    payload <$> queue_of (queue c) key ≡ₚ payload x :: (payload <$> queue_of pq' key).
Proof.
  intros Hrun Hparse Hn Hlen.
  pose proof (run_wf _ _ _ _ wf_New Hrun) as Hwf.
  unfold Length, Len in Hlen.
  destruct (queueMap (queue c) !! key) as [q|] eqn:Hq; [|lia].
  destruct (Dequeue_nonempty _ key q (Hwf _ _ Hq) Hq ltac:(lia)) as (x & q' & Hd & Hpop).
  destruct (heap_Pop_ok q (Hwf _ _ Hq) ltac:(lia)) as (x1 & q1 & Hpop1 & _ & _ & _ & Hmax).
  rewrite Hpop in Hpop1. injection Hpop1 as <- <-.
  exists x, {| queueMap := <[key:=q']> (queueMap (queue c));
               notEmpty := notEmpty (queue c) |}.
  split_and!.
  - rewrite serve_S, (ReadFrom_Parse_Ok _ _ _ _ _ Hparse).
    rewrite (resolve_registered _ _ NewPopCommand) by (by rewrite Hn).
    simpl. unfold Dequeue in Hd.
    destruct (Dequeue_pass (queue c) key) as [[item pq1|pq1]|]; try discriminate.
    by injection Hd as -> ->.
  - unfold queue_of. by rewrite Hq.
  - rewrite (Dequeue_queue_of _ _ _ _ key Hwf Hd).
    by rewrite bool_decide_eq_true_2.
Qed.


End session_more.

(** The registry and the commands agree.  A command built by the
    constructor registered under a name answers to that name, carries
    the arguments it was built from, and never fails the test on the
    number of arguments that its [Execute] repeats. *)
Theorem registry_names_agree name ctor args command :
  commandLibraries !! name = Some ctor →
  ctor args = inl command →
  Name command = name ∧ Args command = args ∧
  ∀ pq written err pq',
    Execute command pq = Returns written err pq' →
    err ≠ Some (wrongNumberOfArgsError name) ∧
    ReplyError (wrongNumberOfArgsError name) ∉ written.
Proof.
  unfold commandLibraries. intros Hl.
  repeat (apply lookup_insert_Some in Hl as [[<- <-]|[_ Hl]]);
    [..|by rewrite lookup_empty in Hl];
    unfold NewQuitCommand, NewLengthCommand, NewPopCommand, NewPushCommand,
      NewEchoCommand, NewPingCommand;
    case_bool_decide as Hlen; intros [= <-]; (split; [done|]).
  all: assert (∀ n, ¬ length args ≠ n → length args = n) as Hdec by (intros; lia).
  all: try apply Hdec in Hlen.
  all: destruct args as [|a1 [|a2 [|a3 [|a4 args]]]]; simpl in *; try lia.
  all: (split; [reflexivity|intros pq written err pq' Hex]).
  all: repeat case_match; simplify_eq.
  all: (split; [try done|]; rewrite ?elem_of_cons, ?elem_of_nil;
        try (intros HH; repeat (destruct HH as [HH|HH]; [discriminate HH|]); exact HH)).
  match goal with H : strconv.ParseInt _ = inr _ |- _ =>
    apply ParseInt_as_error in H as [k ->] end.
  done.
Qed.




Lemma length_is_answered_witness :
  let c := mkConn (array_frame ["length"; "q"]) [] NewPriorityQueueWithRouting in
  serve ascii_ToLower 1 c =
    serve ascii_ToLower 0
      (mkConn EmptyString (output c ++ [ReplyInt64 (Length (queue c) "q")]) (queue c)).
Proof.
  intros c. apply (length_is_answered ascii_ToLower 0 c "length" "q" EmptyString);
    by vm_compute.
Defined.

Lemma push_enqueues_witness :
  let c := mkConn (array_frame ["push"; "q"; "v"; "-7"]) [] NewPriorityQueueWithRouting in
  ∃ pq',
    serve ascii_ToLower 1 c =
      serve ascii_ToLower 0 (mkConn EmptyString (output c ++ [ReplyStatus OK]) pq') ∧
    payload <$> queue_of pq' "q" ≡ₚ ("v", (-7)%Z) :: (payload <$> queue_of (queue c) "q") ∧
    ∀ r, r ≠ "q" → queueMap pq' !! r = queueMap (queue c) !! r.
Proof.
  intros c.
  apply (push_enqueues ascii_ToLower 0 c "push" "q" "v" "-7" (-7)%Z EmptyString);
    by vm_compute.
Defined.

Lemma pop_serves_the_highest_witness :
  let ops := [OpEnqueue "q" (mkItem "a" 5 0); OpEnqueue "q" (mkItem "b" 7 0)] in
  ∃ out pq x pq',
    run ops NewPriorityQueueWithRouting = Some (out, pq) ∧
    serve ascii_ToLower 1 (mkConn (array_frame ["pop"; "q"]) [] pq) =
      serve ascii_ToLower 0 (mkConn EmptyString ([] ++ [ReplyString (value x)]) pq') ∧
    (∀ y, y ∈ queue_of pq "q" → (priority y ≤ priority x)%Z).
Proof.
  intros ops.
  destruct (run ops NewPriorityQueueWithRouting) as [[out pq]|] eqn:Hrun;
    [|vm_compute in Hrun; discriminate].
  destruct (pop_serves_the_highest ascii_ToLower 0
              (mkConn (array_frame ["pop"; "q"]) [] pq) "pop" "q" EmptyString ops out)
    as (x & pq' & Hs & Hmax & _).
  - exact Hrun.
  - by vm_compute.
  - by vm_compute.
  - vm_compute in Hrun. injection Hrun as <- <-. by vm_compute.
  - exists out, pq, x, pq'. by split_and!.
Defined.


Lemma registry_names_agree_witness :
  Name (PushCommand ["q"; "v"; "1"]) = "push" ∧
  Args (PushCommand ["q"; "v"; "1"]) = ["q"; "v"; "1"] ∧
  ∀ pq written err pq',
    Execute (PushCommand ["q"; "v"; "1"]) pq = Returns written err pq' →
    err ≠ Some (wrongNumberOfArgsError "push") ∧
    ReplyError (wrongNumberOfArgsError "push") ∉ written.
Proof.
  apply (registry_names_agree "push" NewPushCommand ["q"; "v"; "1"]); by vm_compute.
Defined.

